(** * log_analyzer: parsing, aggregation and top-N selection

    A shallow embedding of [log_analyzer.py].  The functions of the core
    pipeline ([parse_log_records], [build_report_object], [filter_report]
    and the part of [main] that chains them) are transcribed as Rocq
    functions, together with the pieces of the Python runtime they call
    ([re.search] on the compiled pattern, [float], [round], [sum],
    [sorted], [statistics.median], slicing, [defaultdict(list)]).
    Around the core, [parse_config] is modelled on the value [json.load]
    returns, [get_latest_log] with [parse_log_filename] on the listing of
    the log directory, and [build_report_path]; reading files, logging
    and rendering the template are not modelled.

    Modelling conventions.
    - A decoded line is a [text]: the list of its characters.  Characters
      are those with a code point below 256 (Rocq's [ascii]); the classes
      [\s], [\d] and [.] are the ones Python's [re] uses for [str]
      patterns, restricted to that range.
    - A Python [int] is a [Z].
    - A Python [float] is read as the rational number it denotes ([Q]),
      with exact arithmetic: binary64 rounding, overflow and NaN are not
      part of the model.  [round(x, n)] rounds half to even, as Python
      documents it.
    - A raised exception is a value of [exn]; code that can raise returns
      a [result].
    - A [dict] is an association list in insertion order, which is the
      order [.items()] iterates in. *)

From Stdlib Require Import ZArith QArith Qround Qabs Lqa Lia.
From Stdlib Require Import List Bool Ascii String.
From Stdlib Require Import Permutation Sorted.
Import ListNotations.

Set Implicit Arguments.

Local Open Scope Z_scope.

(** ** Text *)

Definition text := list ascii.

Definition txt (s : string) : text := list_ascii_of_string s.

Fixpoint text_eqb (a b : text) : bool :=
  match a, b with
  | [], [] => true
  | x :: a', y :: b' => Ascii.eqb x y && text_eqb a' b'
  | _, _ => false
  end.

(** ** Exceptions and results *)

Module Py.

(** The exceptions the pipeline can raise.  [Exception] is the one
    [parse_log_records] raises itself; its message carries the ratio. *)
Inductive exn : Type :=
| ZeroDivisionError
| IndexError
| StatisticsError
| Exception (failed_lines_ratio : Q).

Inductive result (A : Type) : Type :=
| Ok (a : A)
| Raise (e : exn).

Arguments Ok {A} a.
Arguments Raise {A} e.

Definition bind {A B : Type} (m : result A) (f : A -> result B) : result B :=
  match m with
  | Ok a => f a
  | Raise e => Raise e
  end.

Definition is_ok {A : Type} (m : result A) : bool :=
  match m with Ok _ => true | Raise _ => false end.

(** ** Numbers *)

(** [a / b] on two ints. *)
Definition truediv_int (a b : Z) : result Q :=
  if b =? 0 then Raise ZeroDivisionError else Ok (inject_Z a / inject_Z b)%Q.

(** [a / b] when at least one operand is a float. *)
Definition truediv (a b : Q) : result Q :=
  if Qeq_bool b 0 then Raise ZeroDivisionError else Ok (a / b)%Q.

(** [a > b]. *)
Definition gt (a b : Q) : bool :=
  match (a ?= b)%Q with Gt => true | _ => false end.

(** [a < b]. *)
Definition lt (a b : Q) : bool :=
  match (a ?= b)%Q with Lt => true | _ => false end.

(** Nearest integer, ties to the even one. *)
Definition round_half_even (x : Q) : Z :=
  let f := Qfloor x in
  match (x - inject_Z f ?= 1 # 2)%Q with
  | Lt => f
  | Gt => f + 1
  | Eq => if Z.even f then f else f + 1
  end.

(** [round(x, ndigits)]. *)
Definition round (x : Q) (ndigits : positive) : Q :=
  let scale := (10 ^ ndigits)%positive in
  (round_half_even (x * inject_Z (Zpos scale)) # scale)%Q.

(** [sum(xs)]: left to right, starting from 0. *)
Definition sum (xs : list Q) : Q := fold_left Qplus xs 0%Q.

(** [len(xs)]. *)
Definition len {A : Type} (xs : list A) : Z := Z.of_nat (List.length xs).

(** ** Lists *)

Section Sorting.

Variables (A K : Type) (key : A -> K) (ltb : K -> K -> bool).

(** [x] goes in front of the first element whose key is not below its
    own, so it stays in front of the elements it ties with. *)
Fixpoint insert (x : A) (l : list A) : list A :=
  match l with
  | [] => [x]
  | y :: l' => if ltb (key y) (key x) then y :: insert x l' else x :: y :: l'
  end.

Fixpoint stable_sort (l : list A) : list A :=
  match l with
  | [] => []
  | x :: l' => insert x (stable_sort l')
  end.

(** [sorted(l, key=key, reverse=reverse)].  The sort is stable; with
    [reverse] the list is reversed, sorted and reversed again, which
    keeps ties in their original order. *)
Definition sorted (reverse : bool) (l : list A) : list A :=
  if reverse then rev (stable_sort (rev l)) else stable_sort l.

End Sorting.

(** [l[-1]]. *)
Definition index_last {A : Type} (l : list A) : result A :=
  match rev l with
  | [] => Raise IndexError
  | x :: _ => Ok x
  end.

(** [l[i]] for [0 <= i]. *)
Definition index {A : Type} (l : list A) (i : Z) : result A :=
  match nth_error l (Z.to_nat i) with
  | Some x => Ok x
  | None => Raise IndexError
  end.

(** [l[:stop]]: a negative [stop] counts from the end. *)
Definition slice_to {A : Type} (l : list A) (stop : Z) : list A :=
  let stop' := if stop <? 0 then Z.max 0 (len l + stop) else stop in
  firstn (Z.to_nat stop') l.

(** [statistics.median(data)]. *)
Definition median (data : list Q) : result Q :=
  let data := sorted (fun x : Q => x) lt false data in
  let n := len data in
  if n =? 0 then Raise StatisticsError
  else if n mod 2 =? 1 then index data (n / 2)
  else
    let i := n / 2 in
    bind (index data (i - 1)) (fun lo =>
    bind (index data i) (fun hi =>
    truediv (lo + hi)%Q 2%Q)).

(** ** [float] on a decimal literal *)

Definition digit_value (c : ascii) : Z := Z.of_nat (nat_of_ascii c) - 48.

Definition digits_value (s : text) : Z :=
  fold_left (fun acc c => 10 * acc + digit_value c) s 0.

Fixpoint split_at_dot (s : text) : text * text :=
  match s with
  | [] => ([], [])
  | c :: s' =>
      if Ascii.eqb c "."%char then ([], s')
      else let (a, b) := split_at_dot s' in (c :: a, b)
  end.

(** [float(s)] for [s] of the shape digits, dot, digits (the only shape
    the [request_time] group admits). *)
Definition float (s : text) : Q :=
  let (ip, fp) := split_at_dot s in
  (digits_value (ip ++ fp) # Pos.of_nat (Nat.pow 10 (List.length fp)))%Q.

End Py.

Notation "x <- m ;; k" := (Py.bind m (fun x => k))
  (at level 61, m at next level, right associativity).

(** ** Regular expressions: the fragment of [re] the pattern uses *)

Module Re.

(** A repetition is always over a character class here ([\s+], [.+],
    [\d+]), so the matcher recurses on the text. *)
Inductive regex : Type :=
| Lit (s : text)                    (* the characters of [s], literally *)
| Cls (p : ascii -> bool)           (* one character of a class *)
| Plus (p : ascii -> bool)          (* [p+], greedy *)
| Alt (a b : regex)                 (* [a|b], left first *)
| Cat (a b : regex)                 (* [ab] *)
| Grp (name : string) (r : regex)   (* [(?P<name>r)] *)
| Eol.                              (* [$] *)

(** The groups of a match, in the order they were closed. *)
Definition groups := list (string * text).

Definition code (c : ascii) : nat := nat_of_ascii c.

(** [\s] on a [str] pattern: the characters [str.isspace] accepts. *)
Definition space (c : ascii) : bool :=
  let n := code c in
  ((9 <=? n) && (n <=? 13) || (28 <=? n) && (n <=? 32)
   || (n =? 133) || (n =? 160))%nat.

(** [\d]. *)
Definition digit (c : ascii) : bool :=
  let n := code c in ((48 <=? n) && (n <=? 57))%nat.

(** [.] without DOTALL: anything but a line feed. *)
Definition dot (c : ascii) : bool := negb (code c =? 10)%nat.

Fixpoint strip_prefix (l s : text) : option text :=
  match l, s with
  | [], _ => Some s
  | x :: l', y :: s' => if Ascii.eqb x y then strip_prefix l' s' else None
  | _ :: _, [] => None
  end.

(** [$] without MULTILINE: at the end, or in front of a final line feed. *)
Definition at_end (s : text) : bool :=
  match s with
  | [] => true
  | [c] => (code c =? 10)%nat
  | _ => false
  end.

(** What a group consumed: the part of [s] in front of the rest [s']. *)
Definition consumed (s s' : text) : text :=
  firstn (List.length s - List.length s') s.

Section Exec.

Variable R : Type.

(** [p+] at [s]: one character, then as many more as possible; the
    continuation is tried at the longest repetition first. *)
Fixpoint plus (p : ascii -> bool) (s : text) (k : text -> option R) : option R :=
  match s with
  | [] => None
  | c :: s' =>
      if p c then
        match plus p s' k with
        | Some r => Some r
        | None => k s'
        end
      else None
  end.

(** Backtracking match of [r] at the start of [s]; [k] receives the rest
    of the text and the groups, and the first success in priority order
    is the result. *)
Fixpoint exec (r : regex) (s : text) (g : groups)
  (k : text -> groups -> option R) : option R :=
  match r with
  | Lit l =>
      match strip_prefix l s with
      | Some s' => k s' g
      | None => None
      end
  | Cls p =>
      match s with
      | c :: s' => if p c then k s' g else None
      | [] => None
      end
  | Plus p => plus p s (fun s' => k s' g)
  | Alt a b =>
      match exec a s g k with
      | Some x => Some x
      | None => exec b s g k
      end
  | Cat a b => exec a s g (fun s' g' => exec b s' g' k)
  | Grp name r' => exec r' s g (fun s' g' => k s' (g' ++ [(name, consumed s s')]))
  | Eol => if at_end s then k s g else None
  end.

End Exec.

(** [re.match]: the pattern at the start of the text. *)
Definition match_at (r : regex) (s : text) : option groups :=
  exec r s [] (fun _ g => Some g).

(** [re.search]: the first position, from the left, where it matches. *)
Fixpoint search (r : regex) (s : text) : option groups :=
  match match_at r s with
  | Some g => Some g
  | None =>
      match s with
      | [] => None
      | _ :: s' => search r s'
      end
  end.

(** Which texts a pattern matches, and with which groups: the
    declarative reading of the syntax. *)
Inductive matches : regex -> text -> groups -> groups -> text -> Prop :=
| M_Lit l rest g : matches (Lit l) l g g rest
| M_Cls (p : ascii -> bool) c rest g : p c = true -> matches (Cls p) [c] g g rest
| M_Plus (p : ascii -> bool) w rest g :
    w <> [] -> Forall (fun c => p c = true) w -> matches (Plus p) w g g rest
| M_AltL a b w g g' rest : matches a w g g' rest -> matches (Alt a b) w g g' rest
| M_AltR a b w g g' rest : matches b w g g' rest -> matches (Alt a b) w g g' rest
| M_Cat a b w1 w2 g g1 g2 rest :
    matches a w1 g g1 (w2 ++ rest) -> matches b w2 g1 g2 rest ->
    matches (Cat a b) (w1 ++ w2) g g2 rest
| M_Grp name r w g g' rest :
    matches r w g g' rest -> matches (Grp name r) w g (g' ++ [(name, w)]) rest
| M_Eol g rest : at_end rest = true -> matches Eol [] g g rest.

End Re.

(** ** The analyzer *)

Module LogAnalyzer.

Import Py.

(** [Dict[str, List[float]]]: the endpoints in insertion order. *)
Definition url_stats_t := list (text * list Q).

(** One entry of the report (the [obj] dict of [build_report_object]). *)
Record summary : Type := {
  url : text;
  count : Z;
  count_perc : Q;
  time_sum : Q;
  time_perc : Q;
  time_avg : Q;
  time_max : Q;
  time_med : Q
}.

Definition ReportDataType := list summary.

(** The double quote character. *)
Definition dquote : ascii := ascii_of_nat 34.

(** The compiled pattern of [parse_log_records], piece by piece:
    [(?:POST|GET|HEAD|PUT|OPTIONS)], [\s+], [(?P<url>.+)], [\s+],
    [HTTP\/], [\d], [\.], [\d], a double quote, [\s], [.+], [\s],
    [(?P<request_time>\d+\.\d+)], [$]. *)
Definition methods : Re.regex :=
  Re.Alt (Re.Lit (txt "POST"))
    (Re.Alt (Re.Lit (txt "GET"))
       (Re.Alt (Re.Lit (txt "HEAD"))
          (Re.Alt (Re.Lit (txt "PUT")) (Re.Lit (txt "OPTIONS"))))).

Definition request_time_re : Re.regex :=
  Re.Cat (Re.Plus Re.digit) (Re.Cat (Re.Lit (txt ".")) (Re.Plus Re.digit)).

Definition pattern : Re.regex :=
  Re.Cat methods
    (Re.Cat (Re.Plus Re.space)
       (Re.Cat (Re.Grp "url" (Re.Plus Re.dot))
          (Re.Cat (Re.Plus Re.space)
             (Re.Cat (Re.Lit (txt "HTTP/"))
                (Re.Cat (Re.Cls Re.digit)
                   (Re.Cat (Re.Lit (txt "."))
                      (Re.Cat (Re.Cls Re.digit)
                         (Re.Cat (Re.Lit [dquote])
                            (Re.Cat (Re.Cls Re.space)
                               (Re.Cat (Re.Plus Re.dot)
                                  (Re.Cat (Re.Cls Re.space)
                                     (Re.Cat (Re.Grp "request_time" request_time_re)
                                        Re.Eol)))))))))))).

(** [data[url].append(x)] on a [defaultdict(list)]: a new key goes last. *)
Fixpoint append_to (data : url_stats_t) (key : text) (x : Q) : url_stats_t :=
  match data with
  | [] => [(key, [x])]
  | (k, v) :: data' =>
      if text_eqb k key then (k, v ++ [x]) :: data'
      else (k, v) :: append_to data' key x
  end.

(** The variables the loop of [parse_log_records] updates. *)
Record counters : Type := {
  data : url_stats_t;
  total_lines_count : Z;
  total_failed_lines_count : Z
}.

Definition counters0 : counters :=
  {| data := []; total_lines_count := 0; total_failed_lines_count := 0 |}.

(** The line extractor: [re.search(pattern, record)] and, on a match,
    [url, request_time = tuple(match.groupdict().values())] with the
    duration converted by [float]. *)
Definition extract (record : text) : option (text * Q) :=
  match Re.search pattern record with
  | Some [(_, url); (_, request_time)] => Some (url, float request_time)
  | _ => None
  end.

(** One iteration of the loop body. *)
Definition loop_body (st : counters) (record : text) : counters :=
  match extract record with
  | None =>
      {| data := data st;
         total_lines_count := total_lines_count st;
         total_failed_lines_count := total_failed_lines_count st + 1 |}
  | Some (url, request_time) =>
      {| data := append_to (data st) url request_time;
         total_lines_count := total_lines_count st + 1;
         total_failed_lines_count := total_failed_lines_count st |}
  end.

(** The state after the whole stream has been read. *)
Definition read_stream (f : list text) : counters := fold_left loop_body f counters0.

(** [parse_log_records], on the decoded lines [f] of the opened file. *)
Definition parse_log_records (f : list text) (error_threshold : Q)
  : result url_stats_t :=
  let st := read_stream f in
  failed_lines_ratio <-
    truediv_int (total_failed_lines_count st) (total_lines_count st) ;;
  if gt failed_lines_ratio error_threshold
  then Raise (Exception failed_lines_ratio)
  else Ok (data st).

Definition count_total (url_stats : url_stats_t) : Z :=
  fold_left Z.add (map (fun kv => len (snd kv)) url_stats) 0.

Definition time_sum_total (url_stats : url_stats_t) : Q :=
  sum (List.concat (map snd url_stats)).

(** The body of the loop of [build_report_object]: the entries of [obj]
    are evaluated in the order they are written. *)
Definition build_obj (count_total : Z) (time_sum_total : Q)
  (url : text) (request_times : list Q) : result summary :=
  let count_url := len request_times in
  let time_sum_url := sum request_times in
  cp <- truediv_int count_url count_total ;;
  tp <- truediv time_sum_url time_sum_total ;;
  avg <- truediv time_sum_url (inject_Z count_url) ;;
  mx <- index_last (sorted (fun x : Q => x) lt false request_times) ;;
  med <- median request_times ;;
  Ok {| url := url;
        count := count_url;
        count_perc := round (cp * 100) 3;
        time_sum := round time_sum_url 3;
        time_perc := round (tp * 100) 3;
        time_avg := round avg 3;
        time_max := mx;
        time_med := round med 3 |}.

Fixpoint build_loop (count_total : Z) (time_sum_total : Q)
  (items : url_stats_t) (report_data : ReportDataType) : result ReportDataType :=
  match items with
  | [] => Ok report_data
  | (url, request_times) :: items' =>
      obj <- build_obj count_total time_sum_total url request_times ;;
      build_loop count_total time_sum_total items' (report_data ++ [obj])
  end.

Definition build_report_object (url_stats : url_stats_t) : result ReportDataType :=
  build_loop (count_total url_stats) (time_sum_total url_stats) url_stats [].

Definition filter_report (report_data : ReportDataType) (report_size : Z)
  : ReportDataType :=
  let final_report_data := sorted time_sum lt true report_data in
  slice_to final_report_data report_size.

(** The configuration values the core reads. *)
Record config : Type := {
  REPORT_SIZE : Z;
  ERROR_THRESHOLD : option Q
}.

(** How a run of [main] ends. *)
Inductive outcome : Type :=
| NoLogsFound                            (* [sys.exit(0)], nothing to process *)
| NoRelatedRecords                       (* [sys.exit(0)], [url_stats] empty *)
| Raised (e : exn)                       (* an exception leaves [main] *)
| Dumped (final_report_data : ReportDataType).

(** [main] from the point where the latest log has been looked up;
    [latest_log] is [None] when [get_latest_log] found none, and
    otherwise the lines of that file. *)
Definition main (cfg : config) (latest_log : option (list text)) : outcome :=
  match latest_log with
  | None => NoLogsFound
  | Some f =>
      let error_threshold :=
        match ERROR_THRESHOLD cfg with Some t => t | None => (1 # 10)%Q end in
      match parse_log_records f error_threshold with
      | Raise e => Raised e
      | Ok url_stats =>
          match url_stats with
          | [] => NoRelatedRecords
          | _ :: _ =>
              match build_report_object url_stats with
              | Raise e => Raised e
              | Ok report_data => Dumped (filter_report report_data (REPORT_SIZE cfg))
              end
          end
      end
  end.

End LogAnalyzer.

(** ** Locating the log and naming the report *)

Module LogFiles.

(** A [datetime.date]. *)
Record date : Type := { year : Z; month : Z; day : Z }.

(** [datetime.min.date()]. *)
Definition date_min : date := {| year := 1; month := 1; day := 1 |}.

(** [a > b] on dates. *)
Definition date_gt (a b : date) : bool :=
  (year b <? year a)
  || ((year b =? year a)
      && ((month b <? month a)
          || ((month b =? month a) && (day b <? day a)))).

Definition is_leap (y : Z) : bool :=
  (y mod 4 =? 0) && (negb (y mod 100 =? 0) || (y mod 400 =? 0)).

Definition days_in_month (y m : Z) : Z :=
  if m =? 2 then (if is_leap y then 29 else 28)
  else if (m =? 4) || (m =? 6) || (m =? 9) || (m =? 11) then 30
  else 31.

(** Whether [date(y, m, d)] exists; the constructor raises [ValueError]
    otherwise. *)
Definition valid_date (y m d : Z) : bool :=
  (1 <=? y) && (y <=? 9999) && (1 <=? m) && (m <=? 12)
  && (1 <=? d) && (d <=? days_in_month y m).

(** [datetime.strptime(s, "%Y%m%d").date()] for [s] of eight digits, the
    shape the [date] group has; [None] stands for [ValueError].  Four
    digits are the year; the month and the day have to take two digits
    each for no text to be left over. *)
Definition strptime_Ymd (s : text) : option date :=
  match s with
  | [y1; y2; y3; y4; m1; m2; d1; d2] =>
      let y := Py.digits_value [y1; y2; y3; y4] in
      let m := Py.digits_value [m1; m2] in
      let d := Py.digits_value [d1; d2] in
      if forallb Re.digit s && valid_date y m d
      then Some {| year := y; month := m; day := d |}
      else None
  | _ => None
  end.

(** The decimal digit for [n mod 10]. *)
Definition digit_char (n : Z) : ascii := ascii_of_nat (48 + Z.to_nat (n mod 10)).

(** [n] in [width] decimal digits, padded with zeros. *)
Fixpoint pad (width : nat) (n : Z) : text :=
  match width with
  | O => []
  | S w => pad w (n / 10) ++ [digit_char n]
  end.

(** [d.strftime("%Y.%m.%d")].  For a year below 1000 the C library
    decides whether [%Y] is padded; the model pads. *)
Definition strftime_Ymd (d : date) : text :=
  pad 4 (year d) ++ txt "." ++ pad 2 (month d) ++ txt "." ++ pad 2 (day d).

(** [b.startswith("/")] and [a.endswith("/")]. *)
Definition starts_with_sep (b : text) : bool :=
  match b with
  | c :: _ => Ascii.eqb c "/"%char
  | [] => false
  end.

Definition ends_with_sep (a : text) : bool := starts_with_sep (rev a).

(** [os.path.join(a, b)] (POSIX). *)
Definition join (a b : text) : text :=
  if starts_with_sep b then b
  else if (match a with [] => true | _ => false end) || ends_with_sep a then a ++ b
  else a ++ txt "/" ++ b.

Definition build_report_path (report_directory : text) (file_date : date) : text :=
  let dt_str := strftime_Ymd file_date in
  let report_name := txt "report-" ++ dt_str ++ txt ".html" in
  join report_directory report_name.

Record LogMetadata : Type := {
  path_to_file : text;
  file_name : text;
  file_date : date;
  file_extension : text
}.

(** [r] repeated [n + 1] times in a row. *)
Fixpoint times (n : nat) (r : Re.regex) : Re.regex :=
  match n with
  | O => r
  | S n' => Re.Cat r (times n' r)
  end.

(** The pattern of [get_latest_log]:
    [nginx-access-ui\.log-(?P<date>\d{8})(?P<extension>\.gz|$)]. *)
Definition file_name_pattern : Re.regex :=
  Re.Cat (Re.Lit (txt "nginx-access-ui.log-"))
    (Re.Cat (Re.Grp "date" (times 7 (Re.Cls Re.digit)))
       (Re.Grp "extension" (Re.Alt (Re.Lit (txt ".gz")) Re.Eol))).

(** [parse_log_filename], on the groups of a match. *)
Definition parse_log_filename (m : Re.groups) : option date * text :=
  match m with
  | [(_, file_date_str); (_, file_extension)] =>
      (strptime_Ymd file_date_str, file_extension)
  | _ => (None, [])
  end.

(** The variables the loop of [get_latest_log] updates. *)
Record latest : Type := {
  latest_log : option LogMetadata;
  latest_date : date
}.

(** One iteration of the loop of [get_latest_log]. *)
Definition latest_step (log_directory : text) (st : latest) (log_file : text) : latest :=
  match Re.search file_name_pattern log_file with
  | None => st
  | Some m =>
      match parse_log_filename m with
      | (None, _) => st
      | (Some file_date, file_extension) =>
          if date_gt file_date (latest_date st) then
            {| latest_log :=
                 Some {| path_to_file := join log_directory log_file;
                         file_name := log_file;
                         file_date := file_date;
                         file_extension := file_extension |};
               latest_date := file_date |}
          else st
      end
  end.

(** [get_latest_log]; [listing] is what [os.listdir(log_directory)]
    returns. *)
Definition get_latest_log (log_directory : text) (listing : list text)
  : option LogMetadata :=
  latest_log
    (fold_left (latest_step log_directory) listing
       {| latest_log := None; latest_date := date_min |}).

End LogFiles.

(** ** The configuration *)

Module Config.

(** A value [json.load] returns. *)
#[local] Unset Elimination Schemes.

Inductive json : Type :=
| JNull
| JBool (b : bool)
| JNum (q : Q)
| JStr (s : text)
| JArr (items : list json)
| JObj (members : list (text * json)).

#[local] Set Elimination Schemes.

(** A [dict] with string keys, in insertion order. *)
Definition dict := list (text * json).

(** What [parse_config] can raise. *)
Inductive error : Type :=
| FileNotFoundError     (* no file at [config_path] *)
| JSONDecodeException   (* the [Exception] raised for a [JSONDecodeError] *)
| TypeError.            (* [**config] on a value that is no mapping *)

(** What is at [config_path]: nothing, text that is not JSON, or a value. *)
Inductive config_file : Type :=
| Missing
| Undecodable
| Holds (config : json).

(** The truth value of a loaded value. *)
Definition truthy (v : json) : bool :=
  match v with
  | JNull => false
  | JBool b => b
  | JNum q => negb (Qeq_bool q 0)
  | JStr s => match s with [] => false | _ => true end
  | JArr items => match items with [] => false | _ => true end
  | JObj members => match members with [] => false | _ => true end
  end.

(** [d[key] = v]: an existing key keeps its place, a new one goes last. *)
Fixpoint set_item (d : dict) (key : text) (v : json) : dict :=
  match d with
  | [] => [(key, v)]
  | (k, w) :: d' =>
      if text_eqb k key then (k, v) :: d' else (k, w) :: set_item d' key v
  end.

(** [{**a, **b}]. *)
Definition merge (a b : dict) : dict :=
  fold_left (fun d kv => set_item d (fst kv) (snd kv)) b a.

(** [d.get(key)]. *)
Fixpoint get (d : dict) (key : text) : option json :=
  match d with
  | [] => None
  | (k, v) :: d' => if text_eqb k key then Some v else get d' key
  end.

Definition parse_config (file : config_file) (default_config : dict)
  : error + dict :=
  match file with
  | Missing => inl FileNotFoundError
  | Undecodable => inl JSONDecodeException
  | Holds config =>
      if negb (truthy config) then inr default_config
      else
        match config with
        | JObj members => inr (merge default_config members)
        | _ => inl TypeError
        end
  end.

Definition DEFAULT_CONFIG : dict :=
  [(txt "REPORT_SIZE", JNum 1000);
   (txt "REPORT_DIR", JStr (txt "./reports"));
   (txt "LOG_DIR", JStr (txt "./log"))].

End Config.

(** ** List objects

    [filter_report] receives a reference to a list object; [sorted] and
    slicing each build a new object.  The heap holds the list objects
    allocated so far, an address being a position in it. *)

Module Obj.

Import Py LogAnalyzer.

Definition heap := list ReportDataType.

Definition addr := nat.

Definition load (h : heap) (a : addr) : ReportDataType := nth a h [].

Definition alloc (h : heap) (v : ReportDataType) : heap * addr :=
  (h ++ [v], List.length h).

(** [filter_report] on list objects. *)
Definition filter_report_obj (h : heap) (report_data : addr) (report_size : Z)
  : heap * addr :=
  let (h1, final_report_data) :=
    alloc h (sorted time_sum lt true (load h report_data)) in
  alloc h1 (slice_to (load h1 final_report_data) report_size).

End Obj.

Import Py LogAnalyzer.

(** ** Notions used in the statements *)

(** Whether the line extractor accepts a line. *)
Definition extracted (record : text) : bool :=
  match extract record with Some _ => true | None => false end.

(** The samples of a stream, in stream order. *)
Fixpoint samples (f : list text) : list (text * Q) :=
  match f with
  | [] => []
  | record :: f' =>
      match extract record with
      | Some s => s :: samples f'
      | None => samples f'
      end
  end.

(** How many lines of a stream were extracted, and how many were not. *)
Definition successful (f : list text) : Z := len (filter extracted f).

Definition failed (f : list text) : Z :=
  len (filter (fun record => negb (extracted record)) f).

(** The latencies observed for one endpoint, in stream order. *)
Definition latencies_of (key : text) (ss : list (text * Q)) : list Q :=
  map snd (filter (fun s => text_eqb (fst s) key) ss).

Fixpoint lookup (key : text) (d : url_stats_t) : option (list Q) :=
  match d with
  | [] => None
  | (k, v) :: d' => if text_eqb k key then Some v else lookup key d'
  end.


(** The same mapping with every latency zero. *)
Definition zero_url_stats : url_stats_t := [(txt "/x", [0.00])%Q].

(** A request line whose duration is zero. *)
Definition zero_line : text :=
  txt "GET /x HTTP/1.1" ++ [dquote] ++ txt " 200 0.00".

(** A request line behind text that is not part of the request. *)
Definition prefixed_line : text :=
  txt "garbage GET /x HTTP/1.1" ++ [dquote] ++ txt " 200 0.5".

(** A request line whose path has a blank in it. *)
Definition blank_path_line : text :=
  txt "GET /a b HTTP/1.1" ++ [dquote] ++ txt " 200 0.5".

(** A line that is no request. *)
Definition junk_line : text := txt "not a request".

Definition default_cfg : config := {| REPORT_SIZE := 1000; ERROR_THRESHOLD := None |}.

(** ** What the pattern accepts *)

(** A non-empty run of characters of one class. *)
Definition run (p : ascii -> bool) (w : text) : Prop :=
  w <> [] /\ Forall (fun c => p c = true) w.

Definition http_methods : list text :=
  [txt "POST"; txt "GET"; txt "HEAD"; txt "PUT"; txt "OPTIONS"].

(** [conforms record url ip fp]: somewhere in [record] there is a method,
    blanks, [url] (any characters but a line feed, blanks included),
    blanks, [HTTP/d.d] and a double quote, a blank, further fields, a
    blank and the duration [ip.fp], which ends the line or stands in
    front of its final line feed. *)
Inductive conforms : text -> text -> text -> text -> Prop :=
| Conforms pre method ws1 url ws2 d1 d2 s1 mid s2 ip fp tail :
    In method http_methods ->
    run Re.space ws1 -> run Re.dot url -> run Re.space ws2 ->
    Re.digit d1 = true -> Re.digit d2 = true ->
    Re.space s1 = true -> run Re.dot mid -> Re.space s2 = true ->
    run Re.digit ip -> run Re.digit fp ->
    Re.at_end tail = true ->
    conforms
      (pre ++ method ++ ws1 ++ url ++ ws2 ++ txt "HTTP/" ++ [d1] ++ txt "." ++ [d2]
       ++ [dquote] ++ [s1] ++ mid ++ [s2] ++ ip ++ txt "." ++ fp ++ tail)
      url ip fp.

(** The number a decimal literal [ip.fp] denotes. *)
Definition decimal_value (ip fp : text) : Q :=
  (inject_Z (digits_value ip)
   + inject_Z (digits_value fp) / inject_Z (10 ^ len fp))%Q.

(** ** Notions about the report *)

(** The middle of a sorted list, as [statistics.median] takes it. *)
Definition middle (s : list Q) : Q :=
  let n := len s in
  if Z.odd n then nth (Z.to_nat (n / 2)) s 0%Q
  else ((nth (Z.to_nat (n / 2 - 1)) s 0 + nth (Z.to_nat (n / 2)) s 0) / 2)%Q.

(** The sum of a list of numbers, written by recursion on the list. *)
Definition total (xs : list Q) : Q := fold_right Qplus 0%Q xs.

(** The record [build_obj] makes when none of its divisions fails. *)
Definition obj_of (count_total : Z) (time_sum_total : Q)
  (key : text) (ts : list Q) (mx med : Q) : summary :=
  {| url := key;
     count := len ts;
     count_perc := round (inject_Z (len ts) / inject_Z count_total * 100) 3;
     time_sum := round (sum ts) 3;
     time_perc := round (sum ts / time_sum_total * 100) 3;
     time_avg := round (sum ts / inject_Z (len ts)) 3;
     time_max := mx;
     time_med := round med 3 |}.

(** [obj] is the record [build_report_object] makes for the endpoint
    [kv] when the totals are [ct] and [tt]. *)
Definition entry_of (ct : Z) (tt : Q) (kv : text * list Q) (obj : summary) : Prop :=
  exists mx,
    In mx (snd kv) /\ (forall x, In x (snd kv) -> (x <= mx)%Q)
    /\ obj = obj_of ct tt (fst kv) (snd kv) mx
               (middle (sorted (fun x : Q => x) lt false (snd kv))).

(** A mapping [build_report_object] goes through without raising. *)
Definition well_formed (url_stats : url_stats_t) : Prop :=
  (forall key ts, In (key, ts) url_stats -> ts <> [])
  /\ ~ (time_sum_total url_stats == 0)%Q.

(** ** Sample data *)

(** What the repository's test expects for [test_url_stats]. *)
Definition test_report_data : ReportDataType :=
  [{| url := txt "test.com";
      count := 4;
      count_perc := 100.000;
      time_sum := 1.426;
      time_perc := 100.000;
      time_avg := 0.356;
      time_max := 0.704;
      time_med := 0.294 |}]%Q.


(** Three records, the last two with the same [time_sum]. *)
Definition rec_of (key : string) (t : Q) : summary :=
  {| url := txt key; count := 1; count_perc := 0; time_sum := t;
     time_perc := 0; time_avg := t; time_max := t; time_med := t |}.

Definition sample_report : ReportDataType :=
  [rec_of "/slow" 1.5; rec_of "/first" 2.5; rec_of "/second" 2.5]%Q.

(** A stream of twenty lines, three of which are no request. *)
Definition mostly_good_stream : list text :=
  repeat prefixed_line 17 ++ repeat junk_line 3.

(** ** Notions about line feeds *)

(** The line feed character. *)
Definition LF : ascii := ascii_of_nat 10.

(** The carriage return character. *)
Definition CR : ascii := ascii_of_nat 13.

(** Whether a pattern matches the empty text. *)
Fixpoint nullable (r : Re.regex) : bool :=
  match r with
  | Re.Lit l => match l with [] => true | _ => false end
  | Re.Cls _ => false
  | Re.Plus _ => false
  | Re.Alt a b => nullable a || nullable b
  | Re.Cat a b => nullable a && nullable b
  | Re.Grp _ r' => nullable r'
  | Re.Eol => true
  end.

(** A sufficient condition for a pattern to match a text and the same
    text with a line feed behind it alike: a part that can take the line
    feed is followed by a part that needs a character more. *)
Fixpoint lf_safe (r : Re.regex) : bool :=
  match r with
  | Re.Lit l => negb (existsb (Ascii.eqb LF) l)
  | Re.Cls p => negb (p LF)
  | Re.Plus p => negb (p LF)
  | Re.Alt a b => lf_safe a && lf_safe b
  | Re.Cat a b => lf_safe b && (lf_safe a || negb (nullable b))
  | Re.Grp _ r' => lf_safe r'
  | Re.Eol => true
  end.

(** A text without a line feed. *)
Definition no_lf (s : text) : Prop := ~ In LF s.

(** ** Notions about log files *)

(** The date and the extension [get_latest_log] reads off a file name,
    if it reads any. *)
Definition dated (log_file : text) : option (LogFiles.date * text) :=
  match Re.search LogFiles.file_name_pattern log_file with
  | None => None
  | Some m =>
      match LogFiles.parse_log_filename m with
      | (Some d, e) => Some (d, e)
      | (None, _) => None
      end
  end.

Definition log_prefix : text := txt "nginx-access-ui.log-".

(** The directory and the file of the repository's tests. *)
Definition test_dir : text := txt "./test/".

Definition test_log_name : text := txt "nginx-access-ui.log-20211225".

(** What holds of the loop variables once the files [done] have been
    seen. *)
Definition latest_inv (dir : text) (done : list text) (st : LogFiles.latest) : Prop :=
  match LogFiles.latest_log st with
  | None =>
      LogFiles.latest_date st = LogFiles.date_min
      /\ forall name d e, In name done -> dated name = Some (d, e) ->
                          LogFiles.date_gt d LogFiles.date_min = false
  | Some log =>
      LogFiles.latest_date st = LogFiles.file_date log
      /\ LogFiles.date_gt (LogFiles.file_date log) LogFiles.date_min = true
      /\ LogFiles.path_to_file log = LogFiles.join dir (LogFiles.file_name log)
      /\ dated (LogFiles.file_name log)
         = Some (LogFiles.file_date log, LogFiles.file_extension log)
      /\ exists before after,
           done = before ++ LogFiles.file_name log :: after
           /\ (forall name d e, In name before -> dated name = Some (d, e) ->
                                LogFiles.date_gt (LogFiles.file_date log) d = true)
           /\ (forall name d e, In name after -> dated name = Some (d, e) ->
                                LogFiles.date_gt d (LogFiles.file_date log) = false)
  end.

(** A configuration file that sets the report size and the threshold. *)
Definition sample_members : Config.dict :=
  [(txt "REPORT_SIZE", Config.JNum 50); (txt "ERROR_THRESHOLD", Config.JNum 0.2)].

(** * Properties *)

Lemma text_eqb_refl (a : text) : text_eqb a a = true.
Proof.
  induction a as [|c a IH]; simpl; [reflexivity|].
  now rewrite Ascii.eqb_refl, IH.
Qed.

Lemma text_eqb_eq (a b : text) : text_eqb a b = true <-> a = b.
Proof.
  split; [|intros ->; apply text_eqb_refl].
  revert b; induction a as [|c a IH]; intros [|d b]; simpl; try discriminate; auto.
  intros H; apply andb_true_iff in H as [H1 H2].
  apply Ascii.eqb_eq in H1; apply IH in H2; congruence.
Qed.

(** *** The loop of [parse_log_records] *)

Lemma fold_loop_body (f : list text) (st : counters) :
  let st' := fold_left loop_body f st in
  total_lines_count st' = total_lines_count st + successful f
  /\ total_failed_lines_count st' = total_failed_lines_count st + failed f.
Proof.
  revert st; induction f as [|record f IH]; intros st; simpl.
  - unfold successful, failed, len; simpl; lia.
  - specialize (IH (loop_body st record)); simpl in IH.
    destruct IH as [IH1 IH2]; rewrite IH1, IH2.
    unfold successful, failed, loop_body, extracted, len; simpl.
    destruct (extract record) as [[u q]|]; simpl; lia.
Qed.

Lemma read_stream_counts (f : list text) :
  total_lines_count (read_stream f) = successful f
  /\ total_failed_lines_count (read_stream f) = failed f.
Proof.
  destruct (fold_loop_body f counters0) as [H1 H2].
  unfold read_stream; rewrite H1, H2; simpl; split; reflexivity.
Qed.


Lemma fold_loop_body_data (f : list text) (st : counters) :
  data (fold_left loop_body f st)
  = fold_left (fun d s => append_to d (fst s) (snd s)) (samples f) (data st).
Proof.
  revert st; induction f as [|record f IH]; intros st; simpl; [reflexivity|].
  rewrite IH. unfold loop_body.
  destruct (extract record) as [[u q]|]; reflexivity.
Qed.

Lemma lookup_append_to (d : url_stats_t) (k key : text) (x : Q) :
  lookup key (append_to d k x)
  = if text_eqb k key
    then Some (match lookup key d with Some v => v | None => [] end ++ [x])
    else lookup key d.
Proof.
  induction d as [|[k' v] d IH]; simpl.
  - destruct (text_eqb k key); reflexivity.
  - destruct (text_eqb k' k) eqn:E; simpl.
    + apply text_eqb_eq in E; subst k'.
      destruct (text_eqb k key); reflexivity.
    + destruct (text_eqb k' key) eqn:E'; [|exact IH].
      destruct (text_eqb k key) eqn:E''; [|reflexivity].
      apply text_eqb_eq in E', E''; subst.
      now rewrite text_eqb_refl in E.
Qed.

Lemma lookup_group (ss : list (text * Q)) (d : url_stats_t) (key : text) :
  lookup key (fold_left (fun d s => append_to d (fst s) (snd s)) ss d)
  = match lookup key d, latencies_of key ss with
    | None, [] => None
    | None, l => Some l
    | Some v, l => Some (v ++ l)
    end.
Proof.
  revert d; induction ss as [|[k x] ss IH]; intros d; simpl.
  - unfold latencies_of; simpl. destruct (lookup key d); [now rewrite app_nil_r|reflexivity].
  - rewrite IH, lookup_append_to. unfold latencies_of; simpl.
    destruct (text_eqb k key); simpl.
    + destruct (lookup key d); simpl; [now rewrite <- app_assoc|reflexivity].
    + reflexivity.
Qed.

Lemma append_to_keys (d : url_stats_t) (k : text) (x : Q) :
  NoDup (map fst d) -> NoDup (map fst (append_to d k x)).
Proof.
  assert (Hin : forall d key, In key (map fst (append_to d k x)) ->
                              key = k \/ In key (map fst d)).
  { clear d. induction d as [|[k' v] d IH]; simpl; intros key H.
    - destruct H as [H|[]]; auto.
    - destruct (text_eqb k' k); simpl in H; [tauto|].
      destruct H as [H|H]; [tauto|]. apply IH in H; tauto. }
  induction d as [|[k' v] d IH]; simpl; intros H.
  - constructor; [intros []|constructor].
  - inversion H as [|? ? Hn Hd]; subst.
    destruct (text_eqb k' k) eqn:E; simpl; [constructor; assumption|].
    constructor; [|auto].
    intros Hc. apply Hin in Hc as [Hc|Hc]; [|contradiction].
    subst k'. now rewrite text_eqb_refl in E.
Qed.

Lemma read_stream_keys (f : list text) : NoDup (map fst (data (read_stream f))).
Proof.
  unfold read_stream. rewrite fold_loop_body_data. simpl.
  assert (H : NoDup (map fst (@nil (text * list Q)))) by constructor.
  revert H. generalize (@nil (text * list Q)).
  induction (samples f) as [|s ss IH]; intros d H; simpl; [exact H|].
  apply IH, append_to_keys, H.
Qed.

Lemma read_stream_lookup (f : list text) (key : text) :
  lookup key (data (read_stream f))
  = match latencies_of key (samples f) with [] => None | l => Some l end.
Proof.
  unfold read_stream. rewrite fold_loop_body_data, lookup_group. reflexivity.
Qed.

Lemma samples_length (f : list text) : len (samples f) = successful f.
Proof.
  unfold successful, len, extracted. f_equal.
  induction f as [|record f IH]; simpl; [reflexivity|].
  destruct (extract record); simpl; congruence.
Qed.

Lemma append_to_nonempty (d : url_stats_t) (k : text) (x : Q) : append_to d k x <> [].
Proof.
  destruct d as [|[k' v] d]; simpl; [discriminate|].
  destruct (text_eqb k' k); discriminate.
Qed.

Lemma group_nonempty (ss : list (text * Q)) (d : url_stats_t) :
  d <> [] -> fold_left (fun d s => append_to d (fst s) (snd s)) ss d <> [].
Proof.
  revert d; induction ss as [|s ss IH]; intros d H; simpl; [exact H|].
  apply IH, append_to_nonempty.
Qed.

(** The aggregation has no endpoint exactly when no line was extracted. *)
Lemma read_stream_empty (f : list text) :
  data (read_stream f) = [] <-> successful f = 0.
Proof.
  rewrite <- samples_length. unfold read_stream. rewrite fold_loop_body_data. simpl.
  destruct (samples f) as [|s ss]; simpl.
  - unfold len; simpl; tauto.
  - split; intros H.
    + exfalso. revert H. apply group_nonempty. discriminate.
    + unfold len in H; simpl in H; lia.
Qed.


Lemma gt_false (a b : Q) : gt a b = false <-> (a <= b)%Q.
Proof.
  unfold gt. rewrite Qle_alt. destruct (a ?= b)%Q; split; congruence.
Qed.


(** C2. The code at a stream without any extracted line: the division of
    the two counters is reached with a zero denominator and its
    [ZeroDivisionError] is what the caller receives. *)
Theorem parse_log_records_no_success (f : list text) (error_threshold : Q) :
  (forall record, In record f -> extracted record = false) ->
  parse_log_records f error_threshold = Raise ZeroDivisionError.
Proof.
  intros H.
  assert (E : successful f = 0).
  { unfold successful. replace (filter extracted f) with (@nil text); [reflexivity|].
    symmetry. induction f as [|record f IH]; simpl; [reflexivity|].
    rewrite (H record) by (left; reflexivity).
    apply IH. intros r Hr. apply H. right; exact Hr. }
  unfold parse_log_records, truediv_int.
  destruct (read_stream_counts f) as [-> _].
  rewrite E. reflexivity.
Qed.

Lemma parse_log_records_no_success_witness :
  parse_log_records [] 0.1 = Raise ZeroDivisionError
  /\ parse_log_records [junk_line; junk_line] 0.1 = Raise ZeroDivisionError.
Proof.
  split.
  - apply (parse_log_records_no_success [] 0.1). intros record [].
  - apply (parse_log_records_no_success [junk_line; junk_line] 0.1).
    intros record [<-|[<-|[]]]; vm_compute; reflexivity.
Defined.



(** The branch of [main] for an empty [url_stats] is never taken:
    [parse_log_records] does not return an empty mapping. *)
Lemma main_never_no_related_records (cfg : config) (latest_log : option (list text)) :
  main cfg latest_log <> NoRelatedRecords.
Proof.
  destruct latest_log as [f|]; simpl; [|discriminate].
  unfold parse_log_records, truediv_int.
  destruct (read_stream_counts f) as [-> _].
  destruct (Z.eqb_spec (successful f) 0) as [E|E]; simpl; [discriminate|].
  destruct (gt _ _); [discriminate|].
  destruct (data (read_stream f)) eqn:D.
  - exfalso. apply E, read_stream_empty, D.
  - destruct (build_report_object _); discriminate.
Qed.

(** C9. A mapping that is not empty on which [build_report_object] raises
    [ZeroDivisionError]: one endpoint whose only latency is zero, as the
    line [zero_line] yields it.  The count total is not zero, so the
    division for [count_perc] goes through; the time total is zero and
    the division for [time_perc] raises. *)
Theorem build_report_object_zero_total :
  extract zero_line = Some (txt "/x", 0.00%Q)
  /\ parse_log_records [zero_line] 0.1 = Ok zero_url_stats
  /\ zero_url_stats <> []
  /\ is_ok (truediv_int (len [0.00%Q]) (count_total zero_url_stats)) = true
  /\ truediv (sum [0.00%Q]) (time_sum_total zero_url_stats) = Raise ZeroDivisionError
  /\ build_report_object zero_url_stats = Raise ZeroDivisionError
  /\ main default_cfg (Some [zero_line]) = Raised ZeroDivisionError.
Proof.
  repeat split; try (vm_compute; reflexivity). discriminate.
Qed.

(** C10. The pattern is searched for, not matched from the start of the
    line: a line with other text in front of the method is extracted,
    with the path and the duration of the request inside it. *)
Theorem extract_prefixed_line :
  Re.match_at pattern prefixed_line = None
  /\ prefixed_line = txt "garbage " ++ skipn 8 prefixed_line
  /\ Re.match_at pattern (skipn 8 prefixed_line)
     = Some [("url"%string, txt "/x"); ("request_time"%string, txt "0.5")]
  /\ extract prefixed_line = Some (txt "/x", 0.5%Q).
Proof.
  repeat split; vm_compute; reflexivity.
Qed.

(** *** Sorting *)

Lemma lt_spec (a b : Q) : lt a b = true <-> (a < b)%Q.
Proof.
  unfold lt. rewrite Qlt_alt. destruct (a ?= b)%Q; split; congruence.
Qed.

Lemma lt_false (a b : Q) : lt a b = false <-> (b <= a)%Q.
Proof.
  destruct (lt a b) eqn:E.
  - apply lt_spec in E. split; [discriminate|].
    intros H. exfalso. exact (Qle_not_lt _ _ H E).
  - split; [|reflexivity]. intros _. apply Qnot_lt_le.
    intros H. apply lt_spec in H. congruence.
Qed.

Lemma StronglySorted_app {A : Type} (R : A -> A -> Prop) (l1 l2 : list A) :
  StronglySorted R l1 -> StronglySorted R l2 ->
  (forall a b, In a l1 -> In b l2 -> R a b) ->
  StronglySorted R (l1 ++ l2).
Proof.
  induction l1 as [|x l1 IH]; simpl; intros H1 H2 H; [exact H2|].
  inversion H1 as [|? ? Hs Hf]; subst.
  constructor.
  - apply IH; auto.
  - apply Forall_app; split; [exact Hf|].
    apply Forall_forall; intros b Hb. apply H; auto.
Qed.

Lemma StronglySorted_rev {A : Type} (R : A -> A -> Prop) (l : list A) :
  StronglySorted R l -> StronglySorted (fun a b => R b a) (rev l).
Proof.
  induction 1 as [|x l Hs IH Hf]; simpl; [constructor|].
  apply StronglySorted_app; [exact IH|repeat constructor|].
  intros a b Ha [<-|[]]. apply in_rev in Ha.
  rewrite Forall_forall in Hf. now apply Hf.
Qed.

Section SortingFacts.

Variables (A : Type) (key : A -> Q).

Let ascending (a b : A) : Prop := (key a <= key b)%Q.
Let tie (k : Q) (a : A) : bool := Qeq_bool (key a) k.

Lemma insert_perm (x : A) (l : list A) : Permutation (insert key lt x l) (x :: l).
Proof.
  induction l as [|y l IH]; simpl; [reflexivity|].
  destruct (lt (key y) (key x)); [|reflexivity].
  rewrite IH. apply perm_swap.
Qed.

Lemma stable_sort_perm (l : list A) : Permutation (stable_sort key lt l) l.
Proof.
  induction l as [|x l IH]; simpl; [reflexivity|].
  rewrite insert_perm. now constructor.
Qed.

Lemma insert_sorted (x : A) (l : list A) :
  StronglySorted ascending l -> StronglySorted ascending (insert key lt x l).
Proof.
  induction 1 as [|y l Hs IH Hf]; simpl; [repeat constructor|].
  destruct (lt (key y) (key x)) eqn:E.
  - constructor; [exact IH|].
    apply (@Permutation_Forall _ _ (x :: l)); [symmetry; apply insert_perm|].
    constructor; [|exact Hf].
    apply lt_spec in E. apply Qlt_le_weak, E.
  - apply lt_false in E.
    constructor; [constructor; assumption|].
    constructor; [exact E|].
    revert Hf. apply Forall_impl. intros a Ha. unfold ascending in *.
    now apply Qle_trans with (key y).
Qed.

Lemma stable_sort_sorted (l : list A) : StronglySorted ascending (stable_sort key lt l).
Proof.
  induction l as [|x l IH]; simpl; [constructor|]. now apply insert_sorted.
Qed.

Lemma insert_stable (k : Q) (x : A) (l : list A) :
  filter (tie k) (insert key lt x l) = filter (tie k) (x :: l).
Proof.
  induction l as [|y l IH]; [reflexivity|].
  simpl insert. destruct (lt (key y) (key x)) eqn:E; [|reflexivity].
  cbn [filter] in *. rewrite IH.
  destruct (tie k y) eqn:Ty, (tie k x) eqn:Tx; try reflexivity.
  exfalso. unfold tie in *. apply Qeq_bool_iff in Ty, Tx.
  apply lt_spec in E. rewrite Ty, Tx in E. revert E. apply Qlt_irrefl.
Qed.

Lemma stable_sort_stable (k : Q) (l : list A) :
  filter (tie k) (stable_sort key lt l) = filter (tie k) l.
Proof.
  induction l as [|x l IH]; [reflexivity|].
  simpl stable_sort. rewrite insert_stable. cbn [filter]. now rewrite IH.
Qed.

Lemma filter_rev (p : A -> bool) (l : list A) : filter p (rev l) = rev (filter p l).
Proof.
  induction l as [|x l IH]; simpl; [reflexivity|].
  rewrite filter_app, IH. simpl. destruct (p x); simpl; [reflexivity|].
  now rewrite app_nil_r.
Qed.

(** [sorted(l, key=key, reverse=True)] is the one arrangement of [l] by
    descending key in which ties keep the order they have in [l]. *)
Lemma sorted_reverse (l : list A) :
  let s := sorted key lt true l in
  Permutation s l
  /\ StronglySorted (fun a b => (key b <= key a)%Q) s
  /\ (forall k, filter (tie k) s = filter (tie k) l).
Proof.
  unfold sorted; simpl. repeat split.
  - rewrite <- Permutation_rev, stable_sort_perm. symmetry; apply Permutation_rev.
  - apply (StronglySorted_rev (R := ascending)), stable_sort_sorted.
  - intros k. rewrite filter_rev, stable_sort_stable, filter_rev. apply rev_involutive.
Qed.

Lemma sorted_forward (l : list A) :
  let s := sorted key lt false l in
  Permutation s l /\ StronglySorted ascending s.
Proof.
  unfold sorted; simpl. split; [apply stable_sort_perm|apply stable_sort_sorted].
Qed.

End SortingFacts.

Lemma slice_to_nonneg {A : Type} (l : list A) (stop : Z) :
  0 <= stop -> slice_to l stop = firstn (Z.to_nat stop) l.
Proof.
  intros H. unfold slice_to. destruct (Z.ltb_spec stop 0); [lia|reflexivity].
Qed.

(** C6. [filter_report] returns the first [report_size] records of the
    arrangement of its input by descending [time_sum] in which records
    with equal [time_sum] keep their input order; all of them when there
    are no more than [report_size]; and the list object it was given, as
    every other object, holds afterwards what it held before. *)
Theorem filter_report_top_n (h : Obj.heap) (report_data : Obj.addr) (report_size : Z) :
  0 <= report_size ->
  (report_data < List.length h)%nat ->
  let input := Obj.load h report_data in
  let h' := fst (Obj.filter_report_obj h report_data report_size) in
  let out := snd (Obj.filter_report_obj h report_data report_size) in
  exists ranked : ReportDataType,
    Permutation ranked input
    /\ StronglySorted (fun a b => (time_sum b <= time_sum a)%Q) ranked
    /\ (forall k, filter (fun r => Qeq_bool (time_sum r) k) ranked
                  = filter (fun r => Qeq_bool (time_sum r) k) input)
    /\ Obj.load h' out = firstn (Z.to_nat report_size) ranked
    /\ Obj.load h' out = filter_report input report_size
    /\ (len input <= report_size -> Obj.load h' out = ranked)
    /\ (forall a, (a < List.length h)%nat -> Obj.load h' a = Obj.load h a)
    /\ out <> report_data.
Proof.
  intros Hn Hv input h' out.
  exists (sorted time_sum lt true input).
  destruct (sorted_reverse time_sum input) as (Hp & Hs & Hst).
  split; [exact Hp|]. split; [exact Hs|]. split; [exact Hst|].
  assert (Hout : Obj.load h' out = filter_report input report_size).
  { subst h' out input. unfold Obj.filter_report_obj, Obj.alloc, Obj.load, filter_report.
    simpl. rewrite length_app. simpl.
    rewrite app_nth2 by (rewrite length_app; simpl; lia).
    rewrite length_app. simpl. rewrite Nat.sub_diag. simpl.
    rewrite app_nth2 by lia. rewrite Nat.sub_diag. reflexivity. }
  assert (Hf : filter_report input report_size
               = firstn (Z.to_nat report_size) (sorted time_sum lt true input)).
  { unfold filter_report. now apply slice_to_nonneg. }
  split; [congruence|]. split; [exact Hout|]. split.
  - intros Hl. rewrite Hout, Hf. apply firstn_all2.
    rewrite (Permutation_length Hp). unfold len in Hl. lia.
  - split.
    + intros a Ha. subst h'. unfold Obj.filter_report_obj, Obj.alloc, Obj.load. simpl.
      rewrite app_nth1 by (rewrite length_app; simpl; lia).
      now rewrite app_nth1.
    + subst out. unfold Obj.filter_report_obj, Obj.alloc. simpl.
      rewrite length_app. simpl. lia.
Qed.

(** *** The entries of the report *)

Lemma index_in_range {A : Type} (l : list A) (i : Z) (d : A) :
  0 <= i < len l -> index l i = Ok (nth (Z.to_nat i) l d).
Proof.
  intros H. unfold index, len in *.
  rewrite (nth_error_nth' l d) by lia. reflexivity.
Qed.

Lemma median_nonempty (ts : list Q) :
  ts <> [] -> median ts = Ok (middle (sorted (fun x : Q => x) lt false ts)).
Proof.
  intros Hne. unfold median, middle.
  set (s := sorted (fun x : Q => x) lt false ts).
  assert (Hlen : len s = len ts).
  { unfold len. f_equal. apply Permutation_length.
    apply (sorted_forward (fun x : Q => x) ts). }
  assert (Hpos : 0 < len s).
  { rewrite Hlen. unfold len. destruct ts; [congruence|simpl; lia]. }
  destruct (Z.eqb_spec (len s) 0) as [E|_]; [lia|].
  rewrite Zmod_odd. destruct (Z.odd (len s)) eqn:Odd; simpl.
  - apply index_in_range. split; [apply Z.div_pos; lia|].
    apply Z.div_lt_upper_bound; lia.
  - assert (Hev : len s = 2 * (len s / 2)).
    { rewrite (Z.div_mod (len s) 2) at 1 by lia.
      rewrite Zmod_odd, Odd. lia. }
    rewrite (index_in_range s 0%Q) by lia. simpl.
    rewrite (index_in_range s 0%Q) by lia. simpl.
    reflexivity.
Qed.

Lemma index_last_sorted (ts : list Q) :
  ts <> [] ->
  exists mx, index_last (sorted (fun x : Q => x) lt false ts) = Ok mx
             /\ In mx ts /\ (forall x, In x ts -> (x <= mx)%Q).
Proof.
  intros Hne.
  destruct (sorted_forward (fun x : Q => x) ts) as [Hp Hs].
  set (s := sorted (fun x : Q => x) lt false ts) in *.
  unfold index_last.
  apply (StronglySorted_rev (R := fun a b : Q => (a <= b)%Q)) in Hs.
  assert (Hr : Permutation (rev s) ts) by (rewrite <- Permutation_rev; exact Hp).
  destruct (rev s) as [|mx r].
  - apply Permutation_nil in Hr. congruence.
  - exists mx. split; [reflexivity|]. split.
    + apply (Permutation_in _ Hr). left; reflexivity.
    + intros x Hx. apply (Permutation_in _ (Permutation_sym Hr)) in Hx.
      destruct Hx as [<-|Hx]; [apply Qle_refl|].
      inversion Hs as [|? ? _ Hf]; subst.
      rewrite Forall_forall in Hf. now apply Hf.
Qed.

Lemma truediv_ok (a b : Q) : ~ (b == 0)%Q -> truediv a b = Ok (a / b)%Q.
Proof.
  intros H. unfold truediv. destruct (Qeq_bool b 0) eqn:E; [|reflexivity].
  apply Qeq_bool_iff in E. contradiction.
Qed.

Lemma truediv_inv (a b q : Q) : truediv a b = Ok q -> ~ (b == 0)%Q /\ q = (a / b)%Q.
Proof.
  unfold truediv. destruct (Qeq_bool b 0) eqn:E; [discriminate|].
  intros [= <-]. split; [|reflexivity].
  intros H. apply Qeq_bool_iff in H. congruence.
Qed.

Lemma len_nonempty {A : Type} (l : list A) : l <> [] <-> len l <> 0.
Proof.
  unfold len. destruct l; simpl; split; intros H; try congruence; lia.
Qed.

Lemma build_obj_ok (ct : Z) (tt : Q) (key : text) (ts : list Q) :
  ct <> 0 -> ~ (tt == 0)%Q -> ts <> [] ->
  exists mx,
    In mx ts /\ (forall x, In x ts -> (x <= mx)%Q)
    /\ build_obj ct tt key ts
       = Ok (obj_of ct tt key ts mx (middle (sorted (fun x : Q => x) lt false ts))).
Proof.
  intros Hct Htt Hts.
  destruct (index_last_sorted Hts) as (mx & Hmx & Hin & Hmax).
  exists mx. split; [exact Hin|]. split; [exact Hmax|].
  unfold build_obj, truediv_int.
  destruct (Z.eqb_spec ct 0) as [|_]; [contradiction|]. cbn [bind].
  rewrite (truediv_ok _ Htt). cbn [bind].
  rewrite truediv_ok.
  2:{ intros H. apply len_nonempty in Hts. apply Hts.
      unfold Qeq in H. simpl in H. lia. }
  cbn [bind]. rewrite Hmx. cbn [bind]. rewrite (median_nonempty Hts). reflexivity.
Qed.

Lemma build_obj_inv (ct : Z) (tt : Q) (key : text) (ts : list Q) (obj : summary) :
  build_obj ct tt key ts = Ok obj ->
  ct <> 0 /\ ~ (tt == 0)%Q /\ ts <> [].
Proof.
  unfold build_obj, truediv_int.
  destruct (Z.eqb_spec ct 0) as [|Hct]; [discriminate|]. cbn [bind].
  destruct (truediv (sum ts) tt) as [tp|] eqn:Etp; [|discriminate]. cbn [bind].
  destruct (truediv (sum ts) (inject_Z (len ts))) as [avg|] eqn:Eavg; [|discriminate].
  intros _. apply truediv_inv in Etp as [Htt _]. apply truediv_inv in Eavg as [Hl _].
  repeat split; auto.
  intros ->. apply Hl. reflexivity.
Qed.

(** What the loop of [build_report_object] returns: one record per
    endpoint, in the order of the mapping, behind those already there. *)
Lemma build_loop_ok (ct : Z) (tt : Q) (items : url_stats_t) (acc rep : ReportDataType) :
  build_loop ct tt items acc = Ok rep <->
  exists objs, rep = acc ++ objs
               /\ Forall2 (fun kv obj => build_obj ct tt (fst kv) (snd kv) = Ok obj)
                    items objs.
Proof.
  revert acc rep; induction items as [|[key ts] items IH]; intros acc rep; simpl.
  - split.
    + intros [= <-]. exists []. now rewrite app_nil_r.
    + intros (objs & -> & H). inversion H. now rewrite app_nil_r.
  - destruct (build_obj ct tt key ts) as [obj|e] eqn:E; simpl.
    + rewrite IH. split.
      * intros (objs & -> & H). exists (obj :: objs).
        rewrite <- app_assoc. split; [reflexivity|]. now constructor.
      * intros (objs & -> & H). inversion H as [|? o ? objs' Ho Hr]; subst.
        simpl in Ho. rewrite E in Ho. injection Ho as <-.
        exists objs'. now rewrite <- app_assoc.
    + split; [discriminate|].
      intros (objs & _ & H). inversion H as [|? o ? objs' Ho Hr]; subst.
      simpl in Ho. congruence.
Qed.

(** *** Sums *)

Lemma fold_left_Qplus (xs : list Q) (a : Q) :
  (fold_left Qplus xs a == a + fold_left Qplus xs 0)%Q.
Proof.
  revert a; induction xs as [|x xs IH]; intros a; simpl; [ring|].
  rewrite (IH (a + x)%Q), (IH (0 + x)%Q). ring.
Qed.

Lemma sum_cons (x : Q) (xs : list Q) : (sum (x :: xs) == x + sum xs)%Q.
Proof.
  unfold sum. simpl. rewrite fold_left_Qplus. ring.
Qed.

Lemma sum_total (xs : list Q) : (sum xs == total xs)%Q.
Proof.
  induction xs as [|x xs IH]; [reflexivity|].
  rewrite sum_cons, IH. reflexivity.
Qed.

Lemma total_app (xs ys : list Q) : (total (xs ++ ys) == total xs + total ys)%Q.
Proof.
  induction xs as [|x xs IH]; simpl; [ring|]. rewrite IH. ring.
Qed.

Lemma time_sum_total_split (m : url_stats_t) :
  (time_sum_total m == total (map (fun kv => sum (snd kv)) m))%Q.
Proof.
  unfold time_sum_total. rewrite sum_total.
  induction m as [|[key ts] m IH]; simpl; [reflexivity|].
  rewrite total_app, IH, sum_total. reflexivity.
Qed.

Lemma fold_left_Zadd (zs : list Z) (a : Z) :
  fold_left Z.add zs a = a + fold_right Z.add 0 zs.
Proof.
  revert a; induction zs as [|z zs IH]; intros a; simpl; [lia|].
  rewrite IH. lia.
Qed.

Lemma count_total_split (m : url_stats_t) :
  count_total m = fold_right Z.add 0 (map (fun kv => len (snd kv)) m).
Proof.
  unfold count_total. now rewrite fold_left_Zadd.
Qed.

Lemma count_total_member (m : url_stats_t) (key : text) (ts : list Q) :
  In (key, ts) m -> len ts <= count_total m.
Proof.
  rewrite count_total_split.
  induction m as [|[k v] m IH]; simpl; [intros []|].
  assert (Hnn : 0 <= fold_right Z.add 0 (map (fun kv => len (snd kv)) m)).
  { clear. induction m as [|[k v] m IH]; simpl; [lia|]. unfold len at 1. lia. }
  intros [[= -> ->]|H]; [lia|].
  apply IH in H. unfold len at 2. lia.
Qed.

Lemma total_scale (A : Type) (f : A -> Q) (c : Q) (l : list A) :
  (total (map (fun a => f a * c) l) == total (map f l) * c)%Q.
Proof.
  induction l as [|a l IH]; simpl; [ring|]. rewrite IH. ring.
Qed.


(** *** Rounding *)



Lemma total_cons (x : Q) (xs : list Q) : total (x :: xs) = (x + total xs)%Q.
Proof. reflexivity. Qed.


(** *** [build_report_object] *)

Lemma well_formed_count_total (m : url_stats_t) : well_formed m -> count_total m <> 0.
Proof.
  intros [Hne Htt].
  destruct m as [|[key ts] m]; [exfalso; apply Htt; reflexivity|].
  assert (Hin : In (key, ts) ((key, ts) :: m)) by (left; reflexivity).
  pose proof (count_total_member _ _ _ Hin) as Hle.
  apply Hne, len_nonempty in Hin. unfold len in *. lia.
Qed.

Lemma build_report_object_ok (m : url_stats_t) :
  well_formed m ->
  exists rep, build_report_object m = Ok rep
              /\ Forall2 (entry_of (count_total m) (time_sum_total m)) m rep.
Proof.
  intros Hwf. pose proof (well_formed_count_total Hwf) as Hct.
  destruct Hwf as [Hne Htt].
  unfold build_report_object.
  set (ct := count_total m) in *. set (tt := time_sum_total m) in *.
  assert (H : exists objs, Forall2 (fun kv obj => build_obj ct tt (fst kv) (snd kv) = Ok obj) m objs
                           /\ Forall2 (entry_of ct tt) m objs).
  { clearbody ct tt. induction m as [|[key ts] m IH].
    - exists []. split; constructor.
    - destruct IH as (objs & H1 & H2).
      { intros k v Hin. apply (Hne k v). right; exact Hin. }
      assert (Hts : ts <> []) by (apply (Hne key); left; reflexivity).
      destruct (build_obj_ok key Hct Htt Hts) as (mx & Hin & Hmax & Hb).
      eexists (_ :: objs). split; constructor; try eassumption.
      exists mx. auto. }
  destruct H as (objs & H1 & H2).
  exists objs. split; [|exact H2].
  apply build_loop_ok. exists objs. split; [reflexivity|exact H1].
Qed.

Lemma build_report_object_inv (m : url_stats_t) (rep : ReportDataType) :
  build_report_object m = Ok rep ->
  Forall2 (entry_of (count_total m) (time_sum_total m)) m rep
  /\ (m <> [] -> count_total m <> 0 /\ well_formed m).
Proof.
  unfold build_report_object. intros H.
  apply build_loop_ok in H as (objs & -> & H). simpl.
  set (ct := count_total m) in *. set (tt := time_sum_total m) in *.
  assert (Hall : forall kv, In kv m -> ct <> 0 /\ ~ (tt == 0)%Q /\ snd kv <> []).
  { intros kv Hin. clearbody ct tt.
    induction H as [|kv' obj m objs Hb Hr IH]; [destruct Hin|].
    destruct Hin as [->|Hin]; [|auto].
    apply build_obj_inv in Hb. exact Hb. }
  split.
  - clearbody ct tt. induction H as [|kv obj m objs Hb Hr IH]; constructor.
    + destruct (Hall kv (or_introl eq_refl)) as (Hct & Htt & Hts).
      destruct (build_obj_ok (fst kv) Hct Htt Hts) as (mx & Hin & Hmax & Hb').
      exists mx. repeat split; auto. congruence.
    + apply IH. intros kv' Hin. apply Hall. right; exact Hin.
  - intros Hne. destruct m as [|kv m]; [congruence|].
    destruct (Hall kv (or_introl eq_refl)) as (Hct & Htt & _).
    split; [exact Hct|]. split; [|exact Htt].
    intros key ts Hin. apply (Hall (key, ts) Hin).
Qed.

(** It returns exactly on the empty mapping and on the well-formed ones. *)
Lemma build_report_object_returns (m : url_stats_t) :
  (exists rep, build_report_object m = Ok rep) <-> m = [] \/ well_formed m.
Proof.
  split.
  - intros [rep H]. destruct m as [|kv m]; [left; reflexivity|right].
    apply build_report_object_inv in H as [_ H]. apply H. discriminate.
  - intros [->|H]; [exists []; reflexivity|].
    destruct (build_report_object_ok H) as (rep & Hr & _). eauto.
Qed.






(** *** The matcher *)

Lemma strip_prefix_spec (l s s' : text) : Re.strip_prefix l s = Some s' <-> s = l ++ s'.
Proof.
  revert s; induction l as [|x l IH]; intros s; simpl.
  - split; [intros [= ->]; reflexivity|intros ->; reflexivity].
  - destruct s as [|y s]; [split; discriminate|].
    destruct (Ascii.eqb_spec x y) as [->|Hn].
    + rewrite IH. split; [intros ->; reflexivity|intros [= ->]; reflexivity].
    + split; [discriminate|intros [= -> _]; congruence].
Qed.

Lemma consumed_app (w rest : text) : Re.consumed (w ++ rest) rest = w.
Proof.
  unfold Re.consumed. rewrite length_app.
  replace (List.length w + List.length rest - List.length rest)%nat
    with (List.length w + 0)%nat by lia.
  rewrite firstn_app_2. simpl. apply app_nil_r.
Qed.

Section MatcherFacts.

Variable R : Type.

Lemma plus_sound (p : ascii -> bool) (s : text) (k : text -> option R) (x : R) :
  Re.plus p s k = Some x ->
  exists w rest, s = w ++ rest /\ w <> []
                 /\ Forall (fun c => p c = true) w /\ k rest = Some x.
Proof.
  revert x; induction s as [|c s IH]; intros x; simpl; [discriminate|].
  destruct (p c) eqn:Hc; [|discriminate].
  destruct (Re.plus p s k) as [y|] eqn:E.
  - intros [= <-]. destruct (IH y eq_refl) as (w & rest & -> & _ & Hw & Hk).
    exists (c :: w), rest. repeat split; auto. discriminate.
  - intros Hk. exists [c], s. repeat split; auto. discriminate.
Qed.

Lemma plus_complete (p : ascii -> bool) (w rest : text) (k : text -> option R) :
  w <> [] -> Forall (fun c => p c = true) w -> k rest <> None ->
  Re.plus p (w ++ rest) k <> None.
Proof.
  intros Hne Hw Hk. induction Hw as [|c w Hc Hw IH]; [congruence|].
  simpl. rewrite Hc.
  destruct w as [|c' w].
  - simpl. destruct (Re.plus p rest k); [discriminate|exact Hk].
  - assert (H : Re.plus p ((c' :: w) ++ rest) k <> None) by (apply IH; discriminate).
    destruct (Re.plus p ((c' :: w) ++ rest) k); [discriminate|congruence].
Qed.

Lemma exec_sound (r : Re.regex) :
  forall (s : text) (g : Re.groups) (k : text -> Re.groups -> option R) (x : R),
    Re.exec r s g k = Some x ->
    exists w rest g', s = w ++ rest /\ Re.matches r w g g' rest /\ k rest g' = Some x.
Proof.
  induction r as [l|p|p|a IHa b IHb|a IHa b IHb|name r IH|]; intros s g k x; simpl.
  - destruct (Re.strip_prefix l s) as [s'|] eqn:E; [|discriminate].
    apply strip_prefix_spec in E. intros Hk.
    exists l, s', g. repeat split; auto. constructor.
  - destruct s as [|c s]; [discriminate|].
    destruct (p c) eqn:Hc; [|discriminate]. intros Hk.
    exists [c], s, g. repeat split; auto. now constructor.
  - intros H. apply plus_sound in H as (w & rest & -> & Hne & Hw & Hk).
    exists w, rest, g. repeat split; auto. now constructor.
  - destruct (Re.exec a s g k) as [y|] eqn:E.
    + intros [= <-]. apply IHa in E as (w & rest & g' & -> & Hm & Hk).
      exists w, rest, g'. repeat split; auto. now apply Re.M_AltL.
    + intros H. apply IHb in H as (w & rest & g' & -> & Hm & Hk).
      exists w, rest, g'. repeat split; auto. now apply Re.M_AltR.
  - intros H. apply IHa in H as (w1 & rest1 & g1 & -> & Hm1 & H).
    apply IHb in H as (w2 & rest & g2 & -> & Hm2 & Hk).
    exists (w1 ++ w2), rest, g2. rewrite <- app_assoc. repeat split; auto.
    now apply Re.M_Cat with g1.
  - intros H. apply IH in H as (w & rest & g' & -> & Hm & Hk).
    rewrite consumed_app in Hk.
    exists w, rest, (g' ++ [(name, w)]). repeat split; auto. now constructor.
  - destruct (Re.at_end s) eqn:E; [|discriminate]. intros Hk.
    exists [], s, g. repeat split; auto. now constructor.
Qed.

Lemma exec_complete (r : Re.regex) (w : text) (g g' : Re.groups) (rest : text) :
  Re.matches r w g g' rest ->
  forall k : text -> Re.groups -> option R,
    k rest g' <> None -> Re.exec r (w ++ rest) g k <> None.
Proof.
  induction 1 as [l rest g|p c rest g Hc|p w rest g Hne Hw
                 |a b w g g' rest Hm IH|a b w g g' rest Hm IH
                 |a b w1 w2 g g1 g2 rest Ha IHa Hb IHb
                 |name r w g g' rest Hm IH|g rest He]; intros k Hk; simpl.
  - rewrite (proj2 (strip_prefix_spec l (l ++ rest) rest) eq_refl). exact Hk.
  - rewrite Hc. exact Hk.
  - now apply plus_complete.
  - specialize (IH k Hk).
    destruct (Re.exec a (w ++ rest) g k); [discriminate|congruence].
  - destruct (Re.exec a (w ++ rest) g k); [discriminate|]. now apply IH.
  - rewrite <- app_assoc. apply IHa. now apply IHb.
  - apply IH. now rewrite consumed_app.
  - rewrite He. exact Hk.
Qed.

End MatcherFacts.

Lemma search_sound (r : Re.regex) (s : text) (g : Re.groups) :
  Re.search r s = Some g ->
  exists pre s', s = pre ++ s' /\ Re.match_at r s' = Some g.
Proof.
  induction s as [|c s IH]; simpl.
  - destruct (Re.match_at r []) eqn:E; [|discriminate].
    intros [= <-]. exists [], []. auto.
  - destruct (Re.match_at r (c :: s)) eqn:E.
    + intros [= <-]. exists [], (c :: s). auto.
    + intros H. apply IH in H as (pre & s' & -> & H).
      exists (c :: pre), s'. auto.
Qed.

Lemma search_complete (r : Re.regex) (pre s : text) :
  Re.match_at r s <> None -> Re.search r (pre ++ s) <> None.
Proof.
  intros H. induction pre as [|c pre IH].
  - destruct s; simpl; destruct (Re.match_at r _); congruence.
  - simpl. destruct (Re.match_at r (c :: pre ++ s)); [discriminate|exact IH].
Qed.

Lemma matches_cat_inv (a b : Re.regex) (w : text) (g g2 : Re.groups) (rest : text) :
  Re.matches (Re.Cat a b) w g g2 rest ->
  exists w1 w2 g1, w = w1 ++ w2 /\ Re.matches a w1 g g1 (w2 ++ rest)
                   /\ Re.matches b w2 g1 g2 rest.
Proof. inversion 1; subst; eauto 7. Qed.

Lemma matches_lit_inv (l w : text) (g g' : Re.groups) (rest : text) :
  Re.matches (Re.Lit l) w g g' rest -> w = l /\ g' = g.
Proof. inversion 1; subst; auto. Qed.

Lemma matches_cls_inv (p : ascii -> bool) (w : text) (g g' : Re.groups) (rest : text) :
  Re.matches (Re.Cls p) w g g' rest -> exists c, w = [c] /\ p c = true /\ g' = g.
Proof. inversion 1; subst; eauto. Qed.

Lemma matches_plus_inv (p : ascii -> bool) (w : text) (g g' : Re.groups) (rest : text) :
  Re.matches (Re.Plus p) w g g' rest ->
  w <> [] /\ Forall (fun c => p c = true) w /\ g' = g.
Proof. inversion 1; subst; auto. Qed.

Lemma matches_alt_inv (a b : Re.regex) (w : text) (g g' : Re.groups) (rest : text) :
  Re.matches (Re.Alt a b) w g g' rest ->
  Re.matches a w g g' rest \/ Re.matches b w g g' rest.
Proof. inversion 1; subst; auto. Qed.

Lemma matches_grp_inv (name : string) (r : Re.regex) (w : text)
  (g g' : Re.groups) (rest : text) :
  Re.matches (Re.Grp name r) w g g' rest ->
  exists g1, Re.matches r w g g1 rest /\ g' = g1 ++ [(name, w)].
Proof. inversion 1; subst; eauto. Qed.

Lemma matches_eol_inv (w : text) (g g' : Re.groups) (rest : text) :
  Re.matches Re.Eol w g g' rest -> w = [] /\ g' = g /\ Re.at_end rest = true.
Proof. inversion 1; subst; auto. Qed.

(** *** The pattern of [parse_log_records] *)

Lemma pattern_matches_inv (w : text) (g : Re.groups) (rest pre : text) :
  Re.matches pattern w [] g rest ->
  exists url ip fp,
    g = [("url"%string, url); ("request_time"%string, ip ++ txt "." ++ fp)]
    /\ conforms (pre ++ w ++ rest) url ip fp.
Proof.
  unfold pattern, request_time_re. intros H.
  repeat match goal with
  | H : Re.matches (Re.Cat _ _) _ _ _ _ |- _ =>
      apply matches_cat_inv in H as (? & ? & ? & -> & ? & ?)
  | H : Re.matches (Re.Grp _ _) _ _ _ _ |- _ =>
      apply matches_grp_inv in H as (? & ? & ->)
  | H : Re.matches (Re.Lit _) _ _ _ _ |- _ =>
      apply matches_lit_inv in H as [-> ->]
  | H : Re.matches (Re.Cls _) _ _ _ _ |- _ =>
      apply matches_cls_inv in H as (? & -> & ? & ->)
  | H : Re.matches (Re.Plus _) _ _ _ _ |- _ =>
      apply matches_plus_inv in H as (? & ? & ->)
  | H : Re.matches Re.Eol _ _ _ _ |- _ =>
      apply matches_eol_inv in H as (-> & -> & ?)
  end.
  match goal with
  | H : Re.matches methods ?m _ ?g0 _ |- _ =>
      assert (Hm : In m http_methods /\ g0 = []);
      [ unfold methods in H;
        repeat (apply matches_alt_inv in H as [H|H]);
        apply matches_lit_inv in H as [-> ->]; simpl; tauto
      | clear H; destruct Hm as [Hm ->] ]
  end.
  do 3 eexists. split; [reflexivity|].
  rewrite app_nil_r, <- !app_assoc.
  apply Conforms; unfold run; auto.
Qed.

Lemma matches_grp (name : string) (r : Re.regex) (w : text)
  (g g' g'' : Re.groups) (rest : text) :
  Re.matches r w g g' rest -> g'' = g' ++ [(name, w)] ->
  Re.matches (Re.Grp name r) w g g'' rest.
Proof. intros H ->. now constructor. Qed.

Lemma conforms_matches (record url ip fp : text) :
  conforms record url ip fp ->
  exists pre w rest,
    record = pre ++ w ++ rest
    /\ Re.matches pattern w []
         [("url"%string, url); ("request_time"%string, ip ++ txt "." ++ fp)] rest.
Proof.
  intros [pre method ws1 u ws2 d1 d2 s1 mid s2 i f tail
          Hm [Hw1 Hw1'] [Hu Hu'] [Hw2 Hw2'] Hd1 Hd2 Hs1 [Hmid Hmid'] Hs2
          [Hi Hi'] [Hf Hf'] Ht].
  exists pre,
    (method ++ ws1 ++ u ++ ws2 ++ txt "HTTP/" ++ [d1] ++ txt "." ++ [d2] ++ [dquote]
     ++ [s1] ++ mid ++ [s2] ++ (i ++ txt "." ++ f) ++ []),
    tail.
  split; [now rewrite app_nil_r, <- !app_assoc|].
  unfold pattern.
  apply Re.M_Cat with (g1 := []).
  { unfold methods. unfold http_methods in Hm.
    destruct Hm as [<-|[<-|[<-|[<-|[<-|[]]]]]].
    - apply Re.M_AltL; constructor.
    - apply Re.M_AltR, Re.M_AltL; constructor.
    - do 2 apply Re.M_AltR. apply Re.M_AltL; constructor.
    - do 3 apply Re.M_AltR. apply Re.M_AltL; constructor.
    - do 4 apply Re.M_AltR. constructor. }
  apply Re.M_Cat with (g1 := []); [now constructor|].
  apply Re.M_Cat with (g1 := [("url"%string, u)]).
  { apply matches_grp with (g' := []); [now constructor|reflexivity]. }
  do 9 (eapply Re.M_Cat; [first [now constructor|constructor]|]).
  eapply Re.M_Cat; [|constructor; exact Ht].
  apply matches_grp with (g' := [("url"%string, u)]); [|reflexivity].
  unfold request_time_re.
  do 2 (eapply Re.M_Cat; [first [now constructor|constructor]|]).
  now constructor.
Qed.

(** *** [float] on the duration *)

Lemma digit_not_dot (c : ascii) : Re.digit c = true -> Ascii.eqb c "."%char = false.
Proof.
  intros H. destruct (Ascii.eqb_spec c "."%char) as [->|]; [|reflexivity].
  discriminate H.
Qed.

Lemma split_at_dot_digits (ip fp : text) :
  Forall (fun c => Re.digit c = true) ip ->
  split_at_dot (ip ++ txt "." ++ fp) = (ip, fp).
Proof.
  induction 1 as [|c ip Hc _ IH]; [reflexivity|].
  cbn [app split_at_dot]. rewrite (digit_not_dot _ Hc).
  cbn [app] in IH. now rewrite IH.
Qed.

Lemma digits_value_app (a b : text) :
  digits_value (a ++ b) = digits_value a * 10 ^ len b + digits_value b.
Proof.
  unfold digits_value. rewrite fold_left_app.
  generalize (fold_left (fun acc c => 10 * acc + digit_value c) a 0).
  induction b as [|c b IH] using rev_ind; intros z.
  - unfold len; simpl. lia.
  - rewrite !fold_left_app. cbn [fold_left]. rewrite (IH z).
    unfold len. rewrite length_app. cbn [List.length].
    rewrite Nat2Z.inj_add, Z.pow_add_r by lia.
    change (10 ^ Z.of_nat 1) with 10. ring.
Qed.

Lemma float_decimal (ip fp : text) :
  Forall (fun c => Re.digit c = true) ip ->
  (float (ip ++ txt "." ++ fp) == decimal_value ip fp)%Q.
Proof.
  intros Hi. unfold float, decimal_value.
  rewrite (split_at_dot_digits fp Hi), digits_value_app.
  rewrite Qmake_Qdiv.
  assert (Hp : Z.pos (Pos.of_nat (10 ^ List.length fp)) = 10 ^ len fp).
  { unfold len. rewrite <- positive_nat_Z, Nat2Pos.id.
    - now rewrite Nat2Z.inj_pow.
    - apply Nat.pow_nonzero. discriminate. }
  rewrite Hp, inject_Z_plus, inject_Z_mult.
  field. intros E.
  assert (H : 0 < 10 ^ len fp) by (apply Z.pow_pos_nonneg; unfold len; lia).
  unfold Qeq in E. simpl in E. lia.
Qed.

(** A match of the pattern always carries its two groups, so the tuple
    unpacking in [extract] never fails. *)
Lemma search_pattern_groups (record : text) (g : Re.groups) :
  Re.search pattern record = Some g ->
  exists url ip fp,
    g = [("url"%string, url); ("request_time"%string, ip ++ txt "." ++ fp)]
    /\ conforms record url ip fp.
Proof.
  intros E. apply search_sound in E as (pre & s' & -> & E).
  unfold Re.match_at in E.
  apply exec_sound in E as (w & rest & g' & -> & Hm & [= ->]).
  now apply pattern_matches_inv.
Qed.

Lemma extract_none (record : text) :
  extract record = None <-> Re.search pattern record = None.
Proof.
  unfold extract. destruct (Re.search pattern record) as [g|] eqn:E; [|tauto].
  apply search_pattern_groups in E as (url & ip & fp & -> & _).
  split; discriminate.
Qed.

(** C7, as amended. A line is extracted exactly when some part of it
    conforms to the pattern, where the path is any non-empty run of
    characters other than a line feed and may contain blanks; the pair
    extracted is then the path of such a reading with the number its
    duration [ip.fp] denotes.  A line is not extracted exactly when no
    part of it conforms. *)
Theorem extract_conforms (record : text) :
  (forall url latency,
      extract record = Some (url, latency) ->
      exists ip fp,
        conforms record url ip fp
        /\ latency = float (ip ++ txt "." ++ fp)
        /\ (latency == decimal_value ip fp)%Q)
  /\ ((exists url ip fp, conforms record url ip fp) ->
      exists url latency, extract record = Some (url, latency))
  /\ (extract record = None <-> ~ exists url ip fp, conforms record url ip fp).
Proof.
  assert (Hsound : forall url latency,
             extract record = Some (url, latency) ->
             exists ip fp,
               conforms record url ip fp
               /\ latency = float (ip ++ txt "." ++ fp)
               /\ (latency == decimal_value ip fp)%Q).
  { unfold extract. intros url latency H.
    destruct (Re.search pattern record) as [g|] eqn:E; [|discriminate].
    apply search_sound in E as (pre & s' & -> & E).
    unfold Re.match_at in E.
    apply exec_sound in E as (w & rest & g' & -> & Hm & [= ->]).
    apply (pattern_matches_inv pre) in Hm as (u & ip & fp & -> & Hc).
    injection H as <- <-.
    exists ip, fp. split; [exact Hc|]. split; [reflexivity|].
    apply float_decimal. inversion Hc; subst.
    match goal with H : run Re.digit ip |- _ => apply H end. }
  assert (Hcomplete : (exists url ip fp, conforms record url ip fp) ->
                      exists url latency, extract record = Some (url, latency)).
  { intros (url & ip & fp & Hc).
    apply conforms_matches in Hc as (pre & w & rest & -> & Hm).
    assert (Hs : Re.search pattern (pre ++ w ++ rest) <> None).
    { apply search_complete. unfold Re.match_at.
      apply (exec_complete Hm). discriminate. }
    unfold extract.
    destruct (Re.search pattern (pre ++ w ++ rest)) as [g|] eqn:E; [|congruence].
    apply search_sound in E as (pre' & s' & Hrec & E).
    unfold Re.match_at in E.
    apply exec_sound in E as (w' & rest' & g' & -> & Hm' & [= ->]).
    apply (pattern_matches_inv pre') in Hm' as (u & ip' & fp' & -> & _).
    eauto. }
  split; [exact Hsound|]. split; [exact Hcomplete|].
  split.
  - intros Hn Hex. apply Hcomplete in Hex as (url & latency & H). congruence.
  - intros Hn. destruct (extract record) as [[url latency]|] eqn:E; [|reflexivity].
    exfalso. apply Hn. destruct (Hsound url latency eq_refl) as (ip & fp & Hc & _).
    eauto.
Qed.

(** C7, the claim as stated fails: this line is extracted although the
    text between the method and the [HTTP/1.1] marker has a blank in it,
    and the endpoint extracted is that text, blank included. *)
Lemma extract_blank_path :
  extract blank_path_line = Some (txt "/a b", 0.5%Q)
  /\ existsb Re.space (txt "/a b") = true.
Proof.
  split; vm_compute; reflexivity.
Qed.

(** *** The repository's tests, and instances of the theorems *)


(** [test_filter_report]. *)
Example test_filter_report : filter_report test_report_data 1 = test_report_data.
Proof. vm_compute. reflexivity. Qed.

(** Ties stay in input order, and the input is ranked before it is cut. *)
Example filter_report_sample :
  filter_report sample_report 2 = [rec_of "/first" 2.5; rec_of "/second" 2.5]%Q.
Proof. vm_compute. reflexivity. Qed.

(** The threshold scenario: 15% of the lines fail. *)
Example threshold_scenario :
  parse_log_records mostly_good_stream 0.1 = Raise (Exception (inject_Z 3 / inject_Z 17))
  /\ is_ok (parse_log_records mostly_good_stream 0.2) = true.
Proof. split; vm_compute; reflexivity. Qed.





Lemma filter_report_top_n_witness :
  exists ranked,
    Permutation ranked sample_report
    /\ StronglySorted (fun a b => (time_sum b <= time_sum a)%Q) ranked
    /\ Obj.load (fst (Obj.filter_report_obj [sample_report] 0%nat 2))
         (snd (Obj.filter_report_obj [sample_report] 0%nat 2))
       = firstn 2 ranked
    /\ Obj.load (fst (Obj.filter_report_obj [sample_report] 0%nat 2)) 0%nat
       = sample_report.
Proof.
  assert (H0 : 0 <= 2) by lia.
  assert (H1 : (0 < List.length [sample_report])%nat) by (simpl; lia).
  destruct (@filter_report_top_n [sample_report] 0%nat 2 H0 H1)
    as (ranked & Hp & Hs & _ & Hout & _ & _ & Hkeep & _).
  exists ranked.
  split; [exact Hp|]. split; [exact Hs|]. split; [exact Hout|].
  exact (Hkeep 0%nat H1).
Defined.


Lemma extract_conforms_witness :
  exists ip fp,
    conforms blank_path_line (txt "/a b") ip fp
    /\ 0.5%Q = float (ip ++ txt "." ++ fp)
    /\ (0.5 == decimal_value ip fp)%Q.
Proof.
  apply (proj1 (extract_conforms blank_path_line)).
  vm_compute. reflexivity.
Defined.



(** * Further properties *)

(** *** What the extractor returns *)

Lemma extract_inv (record url : text) (latency : Q) :
  extract record = Some (url, latency) ->
  exists ip fp, conforms record url ip fp /\ latency = float (ip ++ txt "." ++ fp).
Proof.
  unfold extract. intros H.
  destruct (Re.search pattern record) as [g|] eqn:E; [|discriminate].
  apply search_pattern_groups in E as (u & ip & fp & -> & Hc).
  injection H as <- <-. eauto.
Qed.

Lemma digit_value_nonneg (c : ascii) : Re.digit c = true -> 0 <= digit_value c <= 9.
Proof.
  unfold Re.digit, Re.code, digit_value. intros H.
  apply andb_true_iff in H as [H1 H2].
  apply Nat.leb_le in H1, H2. lia.
Qed.

Lemma digits_value_nonneg (s : text) :
  Forall (fun c => Re.digit c = true) s -> 0 <= digits_value s.
Proof.
  unfold digits_value. intros H.
  assert (G : forall z, 0 <= z -> 0 <= fold_left (fun acc c => 10 * acc + digit_value c) s z).
  { induction H as [|c s Hc _ IH]; intros z Hz; cbn [fold_left]; [exact Hz|].
    apply IH. pose proof (@digit_value_nonneg c Hc). lia. }
  apply G. lia.
Qed.

Lemma float_nonneg (ip fp : text) :
  Forall (fun c => Re.digit c = true) ip ->
  Forall (fun c => Re.digit c = true) fp ->
  (0 <= float (ip ++ txt "." ++ fp))%Q.
Proof.
  intros Hi Hf. unfold float. rewrite (split_at_dot_digits fp Hi).
  unfold Qle. simpl. rewrite Z.mul_1_r.
  apply digits_value_nonneg, Forall_app. now split.
Qed.

Lemma conforms_digits (record url ip fp : text) :
  conforms record url ip fp ->
  Forall (fun c => Re.digit c = true) ip /\ Forall (fun c => Re.digit c = true) fp.
Proof.
  inversion 1; subst. unfold run in *. tauto.
Qed.

Lemma extract_nonneg (record url : text) (latency : Q) :
  extract record = Some (url, latency) -> (0 <= latency)%Q.
Proof.
  intros H. apply extract_inv in H as (ip & fp & Hc & ->).
  apply conforms_digits in Hc as [Hi Hf]. now apply float_nonneg.
Qed.

(** The end of a conforming line: its last character in front of the
    tail is a digit, and the tail can be replaced. *)
Lemma conforms_tail (record url ip fp : text) :
  conforms record url ip fp ->
  exists body d tail,
    record = (body ++ [d]) ++ tail
    /\ Re.digit d = true /\ Re.at_end tail = true
    /\ forall tail', Re.at_end tail' = true ->
                     conforms ((body ++ [d]) ++ tail') url ip fp.
Proof.
  intros [pre method ws1 u ws2 d1 d2 s1 mid s2 i f tail
          Hm Hw1 Hu Hw2 Hd1 Hd2 Hs1 Hmid Hs2 Hi Hf Ht].
  destruct Hf as [Hne Hf].
  destruct (exists_last Hne) as (f' & d & ->).
  exists (pre ++ method ++ ws1 ++ u ++ ws2 ++ txt "HTTP/" ++ [d1] ++ txt "." ++ [d2]
          ++ [dquote] ++ [s1] ++ mid ++ [s2] ++ i ++ txt "." ++ f'), d, tail.
  split; [now rewrite <- !app_assoc|].
  split; [apply Forall_app in Hf as [_ Hd]; now inversion Hd|].
  split; [exact Ht|].
  intros tail' Ht'.
  match goal with
  | |- conforms ?x _ _ _ =>
      replace x
        with (pre ++ method ++ ws1 ++ u ++ ws2 ++ txt "HTTP/" ++ [d1] ++ txt "."
              ++ [d2] ++ [dquote] ++ [s1] ++ mid ++ [s2] ++ i ++ txt "."
              ++ (f' ++ [d]) ++ tail')
        by (now rewrite <- !app_assoc)
  end.
  apply Conforms; unfold run; auto.
Qed.

Lemma at_end_cases (tail : text) :
  Re.at_end tail = true -> tail = [] \/ tail = [LF].
Proof.
  destruct tail as [|c [|c' tail]]; simpl; try discriminate; auto.
  intros H. right. apply Nat.eqb_eq in H. f_equal.
  unfold Re.code in H. rewrite <- (ascii_nat_embedding c), H. reflexivity.
Qed.

(** A line that ends in carriage return and line feed is never extracted. *)
Theorem extract_crlf (line : text) : extract (line ++ [CR; LF]) = None.
Proof.
  destruct (extract (line ++ [CR; LF])) as [[url latency]|] eqn:E; [|reflexivity].
  exfalso. apply extract_inv in E as (ip & fp & Hc & _).
  apply conforms_tail in Hc as (body & d & tail & Heq & Hd & Ht & _).
  apply at_end_cases in Ht as [->| ->].
  - rewrite app_nil_r in Heq.
    change (line ++ [CR; LF]) with (line ++ [CR] ++ [LF]) in Heq.
    rewrite app_assoc in Heq. apply app_inj_tail in Heq as [_ <-]. discriminate Hd.
  - change (line ++ [CR; LF]) with (line ++ [CR] ++ [LF]) in Heq.
    rewrite app_assoc in Heq. apply app_inj_tail in Heq as [Heq _].
    apply app_inj_tail in Heq as [_ <-]. discriminate Hd.
Qed.

(** *** The final line feed *)

Lemma no_lf_cons (c : ascii) (s : text) : no_lf (c :: s) -> c <> LF /\ no_lf s.
Proof.
  unfold no_lf. simpl. intros H. split; [intros ->; tauto|tauto].
Qed.

Lemma no_lf_app (w rest : text) : no_lf (w ++ rest) -> no_lf rest.
Proof.
  unfold no_lf. intros H Hin. apply H, in_or_app. now right.
Qed.

Lemma code_lf (c : ascii) : (Re.code c =? 10)%nat = true -> c = LF.
Proof.
  intros H. apply Nat.eqb_eq in H. unfold Re.code in H.
  rewrite <- (ascii_nat_embedding c), H. reflexivity.
Qed.

Lemma at_end_lf (s : text) :
  no_lf s -> Re.at_end (s ++ [LF]) = Re.at_end s /\ (Re.at_end s = true -> s = []).
Proof.
  destruct s as [|c [|c' s]]; intros H; simpl.
  - split; reflexivity.
  - apply no_lf_cons in H as [Hc _].
    destruct (Re.code c =? 10)%nat eqn:E; [|split; [reflexivity|discriminate]].
    apply code_lf in E. contradiction.
  - split; [reflexivity|discriminate].
Qed.

Lemma strip_prefix_lf (l s r : text) :
  Re.strip_prefix l (s ++ [LF]) = Some r ->
  (exists r', r = r' ++ [LF] /\ Re.strip_prefix l s = Some r')
  \/ (r = [] /\ l = s ++ [LF]).
Proof.
  intros H. apply strip_prefix_spec in H.
  destruct r as [|x r0].
  - right. rewrite app_nil_r in H. auto.
  - left. assert (Hne : x :: r0 <> []) by discriminate.
    destruct (exists_last Hne) as (r' & c & E). rewrite E in *.
    rewrite app_assoc in H. apply app_inj_tail in H as [Hs <-].
    exists r'. split; [reflexivity|]. now apply strip_prefix_spec.
Qed.

Lemma strip_prefix_lf_some (l s r : text) :
  Re.strip_prefix l s = Some r -> Re.strip_prefix l (s ++ [LF]) = Some (r ++ [LF]).
Proof.
  intros H. apply strip_prefix_spec in H. apply strip_prefix_spec.
  subst s. now rewrite app_assoc.
Qed.

Lemma consumed_lf (s rest : text) :
  Re.consumed (s ++ [LF]) (rest ++ [LF]) = Re.consumed s rest.
Proof.
  unfold Re.consumed. rewrite !length_app. simpl.
  replace (List.length s + 1 - (List.length rest + 1))%nat
    with (List.length s - List.length rest)%nat by lia.
  rewrite firstn_app.
  replace (List.length s - List.length rest - List.length s)%nat with 0%nat by lia.
  simpl. apply app_nil_r.
Qed.

Section LineFeed.

Variable R : Type.

Lemma exec_nil_none (r : Re.regex) :
  forall (g : Re.groups) (k : text -> Re.groups -> option R),
    (forall g', k [] g' = None) -> Re.exec r [] g k = None.
Proof.
  induction r as [l|p|p|a IHa b IHb|a IHa b IHb|name r IH|]; intros g k Hk; simpl.
  - destruct l; simpl; [apply Hk|reflexivity].
  - reflexivity.
  - reflexivity.
  - rewrite IHa by exact Hk. now apply IHb.
  - apply IHa. intros g'. now apply IHb.
  - apply IH. intros g'. apply Hk.
  - apply Hk.
Qed.

Lemma nullable_false (r : Re.regex) :
  nullable r = false ->
  forall (g : Re.groups) (k : text -> Re.groups -> option R), Re.exec r [] g k = None.
Proof.
  induction r as [l|p|p|a IHa b IHb|a IHa b IHb|name r IH|]; simpl; intros H g k.
  - destruct l; [discriminate|reflexivity].
  - reflexivity.
  - reflexivity.
  - apply orb_false_iff in H as [Ha Hb]. now rewrite IHa, IHb.
  - apply andb_false_iff in H as [Ha|Hb]; [now apply IHa|].
    apply exec_nil_none. intros g'. now apply IHb.
  - now apply IH.
  - discriminate.
Qed.

Lemma plus_lf (p : ascii -> bool) (s : text) (k k' : text -> option R) :
  no_lf s ->
  (forall rest, no_lf rest -> k' (rest ++ [LF]) = k rest) ->
  k' [] = None \/ p LF = false ->
  Re.plus p (s ++ [LF]) k' = Re.plus p s k.
Proof.
  intros Hs Hrel Hend. induction s as [|c s IH]; simpl.
  - destruct Hend as [E|E]; rewrite E; [destruct (p LF)|]; reflexivity.
  - apply no_lf_cons in Hs as [_ Hs].
    destruct (p c); [|reflexivity].
    rewrite (IH Hs), (Hrel s Hs). reflexivity.
Qed.

Lemma exec_lf (r : Re.regex) :
  forall (s : text) (g : Re.groups) (k k' : text -> Re.groups -> option R),
    no_lf s ->
    (forall rest g', no_lf rest -> k' (rest ++ [LF]) g' = k rest g') ->
    (forall g', k' [] g' = None) \/ lf_safe r = true ->
    Re.exec r (s ++ [LF]) g k' = Re.exec r s g k.
Proof.
  induction r as [l|p|p|a IHa b IHb|a IHa b IHb|name r IH|];
    intros s g k k' Hs Hrel Hend; simpl.
  - destruct (Re.strip_prefix l s) as [r'|] eqn:E.
    + rewrite (strip_prefix_lf_some _ _ E).
      apply strip_prefix_spec in E. subst s. apply Hrel.
      now apply no_lf_app in Hs.
    + destruct (Re.strip_prefix l (s ++ [LF])) as [r|] eqn:E'; [|reflexivity].
      apply strip_prefix_lf in E' as [(r' & _ & E')|[-> ->]]; [congruence|].
      destruct Hend as [Hk|Hl]; [apply Hk|].
      exfalso. cbn [lf_safe] in Hl. apply negb_true_iff in Hl.
      rewrite existsb_app in Hl.
      change (existsb (Ascii.eqb LF) [LF]) with true in Hl.
      now rewrite orb_true_r in Hl.
  - destruct s as [|c s]; simpl.
    + destruct Hend as [Hk|Hp].
      * rewrite Hk. now destruct (p LF).
      * simpl in Hp. apply negb_true_iff in Hp. now rewrite Hp.
    + apply no_lf_cons in Hs as [_ Hs].
      destruct (p c); [|reflexivity]. now apply Hrel.
  - apply plus_lf; [exact Hs| |].
    + intros rest Hr. now apply Hrel.
    + destruct Hend as [Hk|Hp]; [left; apply Hk|right].
      simpl in Hp. now apply negb_true_iff in Hp.
  - destruct Hend as [Hk|Hl].
    + rewrite (IHa s g k k'), (IHb s g k k'); auto.
    + simpl in Hl. apply andb_true_iff in Hl as [Ha Hb].
      rewrite (IHa s g k k'), (IHb s g k k'); auto.
  - apply IHa; [exact Hs| |].
    + intros rest g' Hr. apply IHb; [exact Hr|exact Hrel|].
      destruct Hend as [Hk|Hl]; [now left|right].
      simpl in Hl. now apply andb_true_iff in Hl as [Hb _].
    + destruct Hend as [Hk|Hl].
      * left. intros g'. now apply exec_nil_none.
      * simpl in Hl. apply andb_true_iff in Hl as [_ Hl].
        apply orb_true_iff in Hl as [Ha|Hn]; [now right|left].
        intros g'. apply nullable_false. now apply negb_true_iff in Hn.
  - apply IH; [exact Hs| |].
    + intros rest g' Hr. rewrite consumed_lf. now apply Hrel.
    + destruct Hend as [Hk|Hl]; [left|now right].
      intros g'. apply Hk.
  - destruct (at_end_lf Hs) as [-> Hnil].
    destruct (Re.at_end s) eqn:E; [|reflexivity].
    rewrite (Hnil eq_refl). apply (Hrel [] g). intros [].
Qed.

End LineFeed.

Lemma match_at_lf (r : Re.regex) (s : text) :
  lf_safe r = true -> no_lf s -> Re.match_at r (s ++ [LF]) = Re.match_at r s.
Proof.
  intros Hr Hs. unfold Re.match_at. apply exec_lf; auto.
Qed.

Lemma search_lf (r : Re.regex) (s : text) :
  lf_safe r = true -> no_lf s -> Re.search r (s ++ [LF]) = Re.search r s.
Proof.
  intros Hr. induction s as [|c s IH]; intros Hs.
  - cbn [app Re.search].
    rewrite (@match_at_lf r [] Hr Hs : Re.match_at r [LF] = Re.match_at r []).
    destruct (Re.match_at r []); reflexivity.
  - cbn [app Re.search].
    change (c :: s ++ [LF]) with ((c :: s) ++ [LF]).
    rewrite (@match_at_lf r (c :: s) Hr Hs).
    apply no_lf_cons in Hs as [_ Hs]. now rewrite IH.
Qed.

(** The line feed that ends a line read from the file does not change
    what is extracted from it. *)
Theorem extract_final_line_feed (line : text) :
  no_lf line -> extract (line ++ [LF]) = extract line.
Proof.
  intros H. unfold extract. rewrite search_lf; [reflexivity| |exact H].
  vm_compute. reflexivity.
Qed.

Lemma extract_final_line_feed_witness :
  extract (prefixed_line ++ [LF]) = extract prefixed_line.
Proof.
  apply (@extract_final_line_feed prefixed_line).
  unfold no_lf. intros H. vm_compute in H.
  repeat (destruct H as [H|H]; [discriminate H|]). exact H.
Defined.

(** *** The mapping [parse_log_records] returns *)

Lemma sum_snoc (v : list Q) (x : Q) : (sum (v ++ [x]) == sum v + x)%Q.
Proof.
  rewrite !sum_total, total_app. unfold total at 2. simpl. ring.
Qed.

Lemma append_to_lists (P : Q -> Prop) (d : url_stats_t) (k : text) (x : Q) :
  P x ->
  Forall (fun kv => snd kv <> [] /\ Forall P (snd kv)) d ->
  Forall (fun kv => snd kv <> [] /\ Forall P (snd kv)) (append_to d k x).
Proof.
  intros Hx. induction 1 as [|[k' v] d [Hne Hv] Hd IH]; simpl.
  - repeat constructor; [discriminate|exact Hx].
  - destruct (text_eqb k' k); constructor; auto. simpl in *. split.
    + destruct v; discriminate.
    + apply Forall_app. split; [exact Hv|]. now constructor.
Qed.

Lemma append_to_count_total (d : url_stats_t) (k : text) (x : Q) :
  count_total (append_to d k x) = count_total d + 1.
Proof.
  rewrite !count_total_split.
  induction d as [|[k' v] d IH]; simpl; [reflexivity|].
  destruct (text_eqb k' k); simpl.
  - unfold len. rewrite length_app. simpl. lia.
  - rewrite IH. lia.
Qed.

Lemma append_to_time_sum_total (d : url_stats_t) (k : text) (x : Q) :
  (time_sum_total (append_to d k x) == time_sum_total d + x)%Q.
Proof.
  rewrite !time_sum_total_split.
  induction d as [|[k' v] d IH].
  - change (total [sum [x]] == total [] + x)%Q.
    unfold total, sum. simpl. ring.
  - cbn [append_to]. destruct (text_eqb k' k).
    + change (sum (v ++ [x]) + total (map (fun kv => sum (snd kv)) d)
              == sum v + total (map (fun kv => sum (snd kv)) d) + x)%Q.
      rewrite sum_snoc. ring.
    + change (sum v + total (map (fun kv => sum (snd kv)) (append_to d k x))
              == sum v + total (map (fun kv => sum (snd kv)) d) + x)%Q.
      rewrite IH. ring.
Qed.

Lemma samples_nonneg (f : list text) : Forall (fun s => (0 <= snd s)%Q) (samples f).
Proof.
  induction f as [|record f IH]; simpl; [constructor|].
  destruct (extract record) as [[url latency]|] eqn:E; [|exact IH].
  constructor; [|exact IH]. simpl. now apply extract_nonneg in E.
Qed.

Lemma group_invariants (ss : list (text * Q)) (d : url_stats_t) :
  Forall (fun s => (0 <= snd s)%Q) ss ->
  Forall (fun kv => snd kv <> [] /\ Forall (fun x => (0 <= x)%Q) (snd kv)) d ->
  let d' := fold_left (fun d s => append_to d (fst s) (snd s)) ss d in
  Forall (fun kv => snd kv <> [] /\ Forall (fun x => (0 <= x)%Q) (snd kv)) d'
  /\ count_total d' = count_total d + len ss
  /\ (time_sum_total d' == time_sum_total d + total (map snd ss))%Q.
Proof.
  intros Hss. revert d. induction Hss as [|[k x] ss Hx _ IH]; intros d Hd; simpl.
  - split; [exact Hd|]. split; [unfold len; simpl; lia|]. unfold total. simpl. ring.
  - destruct (IH (append_to d k x)) as (H1 & H2 & H3).
    { now apply append_to_lists. }
    split; [exact H1|]. split.
    + rewrite H2, append_to_count_total. unfold len. simpl List.length. lia.
    + rewrite H3, append_to_time_sum_total. unfold total. simpl. ring.
Qed.

Lemma read_stream_invariants (f : list text) :
  let m := data (read_stream f) in
  Forall (fun kv => snd kv <> [] /\ Forall (fun x => (0 <= x)%Q) (snd kv)) m
  /\ count_total m = successful f
  /\ (time_sum_total m == total (map snd (samples f)))%Q.
Proof.
  unfold read_stream. rewrite fold_loop_body_data. simpl.
  destruct (group_invariants (samples_nonneg f) (Forall_nil _)) as (H1 & H2 & H3).
  split; [exact H1|]. split.
  - rewrite H2, samples_length. reflexivity.
  - rewrite H3. unfold time_sum_total, sum. simpl. ring.
Qed.

Lemma parse_log_records_ok_inv (f : list text) (t : Q) (m : url_stats_t) :
  parse_log_records f t = Ok m ->
  m = data (read_stream f) /\ 0 < successful f
  /\ (inject_Z (failed f) / inject_Z (successful f) <= t)%Q.
Proof.
  unfold parse_log_records, truediv_int.
  destruct (read_stream_counts f) as [-> ->].
  destruct (Z.eqb_spec (successful f) 0) as [E|E]; [discriminate|]. cbn [bind].
  destruct (gt _ t) eqn:G; [discriminate|].
  intros [= <-]. split; [reflexivity|]. split.
  - unfold successful, len in *. lia.
  - now apply gt_false.
Qed.

(** A mapping [parse_log_records] returns is not empty and has distinct
    endpoints; none of its latency lists is empty and no latency is
    negative; it holds one latency per extracted line, and its time total
    is the sum of the extracted latencies. *)
Theorem parse_log_records_mapping (f : list text) (error_threshold : Q)
  (url_stats : url_stats_t) :
  parse_log_records f error_threshold = Ok url_stats ->
  url_stats <> []
  /\ NoDup (map fst url_stats)
  /\ (forall key ts, In (key, ts) url_stats ->
                     ts <> [] /\ Forall (fun x => (0 <= x)%Q) ts)
  /\ count_total url_stats = successful f
  /\ (time_sum_total url_stats == total (map snd (samples f)))%Q.
Proof.
  intros H. apply parse_log_records_ok_inv in H as (-> & Hpos & _).
  destruct (read_stream_invariants f) as (H1 & H2 & H3).
  split.
  - intros E. apply read_stream_empty in E. lia.
  - split; [apply read_stream_keys|]. split; [|split; assumption].
    intros key ts Hin. rewrite Forall_forall in H1. apply (H1 _ Hin).
Qed.

Lemma parse_log_records_mapping_witness :
  exists url_stats,
    parse_log_records mostly_good_stream 0.2 = Ok url_stats
    /\ url_stats <> [] /\ count_total url_stats = 17.
Proof.
  destruct (parse_log_records mostly_good_stream 0.2) as [m|e] eqn:E;
    [|vm_compute in E; discriminate E].
  exists m. split; [reflexivity|].
  destruct (parse_log_records_mapping _ _ E) as (Hne & _ & _ & Hc & _).
  split; [exact Hne|]. rewrite Hc. vm_compute. reflexivity.
Defined.

(** *** How [build_report_object] and [main] end *)

Lemma truediv_raises (a b : Q) (e : exn) : truediv a b = Raise e -> e = ZeroDivisionError.
Proof.
  unfold truediv. destruct (Qeq_bool b 0); [|discriminate]. now intros [= <-].
Qed.

Lemma build_obj_raises (ct : Z) (tt : Q) (key : text) (ts : list Q) (e : exn) :
  build_obj ct tt key ts = Raise e -> e = ZeroDivisionError.
Proof.
  unfold build_obj, truediv_int.
  destruct (Z.eqb_spec ct 0) as [|Hct]; [now intros [= <-]|]. cbn [bind].
  destruct (truediv (sum ts) tt) as [tp|e1] eqn:E1; cbn [bind];
    [|intros [= <-]; now apply truediv_raises in E1].
  destruct (truediv (sum ts) (inject_Z (len ts))) as [avg|e2] eqn:E2; cbn [bind];
    [|intros [= <-]; now apply truediv_raises in E2].
  apply truediv_inv in E2 as [Hl _].
  assert (Hts : ts <> []) by (intros ->; apply Hl; reflexivity).
  destruct (index_last_sorted Hts) as (mx & -> & _). cbn [bind].
  rewrite (median_nonempty Hts). discriminate.
Qed.

Lemma build_loop_raises (ct : Z) (tt : Q) (items : url_stats_t)
  (acc : ReportDataType) (e : exn) :
  build_loop ct tt items acc = Raise e -> e = ZeroDivisionError.
Proof.
  revert acc. induction items as [|[key ts] items IH]; intros acc; simpl; [discriminate|].
  destruct (build_obj ct tt key ts) as [obj|e'] eqn:E; simpl.
  - apply IH.
  - intros [= <-]. now apply build_obj_raises in E.
Qed.

Lemma entry_of_url (ct : Z) (tt : Q) (m : url_stats_t) (rep : ReportDataType) :
  Forall2 (entry_of ct tt) m rep -> map url rep = map fst m.
Proof.
  induction 1 as [|kv obj m rep (mx & _ & _ & ->) _ IH]; simpl; [reflexivity|].
  now rewrite IH.
Qed.

(** [build_report_object] returns, with one record per endpoint in the
    order of the mapping, exactly on the empty mapping and on the
    mappings that have no empty latency list and a time total other than
    zero; on every other mapping it raises [ZeroDivisionError], and it
    raises nothing else. *)
Theorem build_report_object_outcome (url_stats : url_stats_t) :
  match build_report_object url_stats with
  | Ok report_data =>
      map url report_data = map fst url_stats
      /\ (url_stats = []
          \/ ((forall key ts, In (key, ts) url_stats -> ts <> [])
              /\ ~ (time_sum_total url_stats == 0)%Q))
  | Raise e =>
      e = ZeroDivisionError
      /\ url_stats <> []
      /\ ~ ((forall key ts, In (key, ts) url_stats -> ts <> [])
            /\ ~ (time_sum_total url_stats == 0)%Q)
  end.
Proof.
  destruct (build_report_object url_stats) as [rep|e] eqn:E.
  - split.
    + apply build_report_object_inv in E as [Hf _]. now apply entry_of_url in Hf.
    + apply (proj1 (build_report_object_returns url_stats)). eauto.
  - split; [unfold build_report_object in E; now apply build_loop_raises in E|].
    split.
    + intros ->. discriminate E.
    + intros Hwf.
      destruct (proj2 (build_report_object_returns url_stats) (or_intror Hwf))
        as [rep Hr].
      congruence.
Qed.



Lemma total_all_zero (l : list Q) : Forall (fun x => (x == 0)%Q) l -> (total l == 0)%Q.
Proof.
  induction 1 as [|x l Hx _ IH]; [reflexivity|]. rewrite total_cons. lra.
Qed.




(** *** The range of the shares *)








(** *** More on [filter_report] *)

Lemma stable_sort_sorted_id (A : Type) (key : A -> Q) (l : list A) :
  StronglySorted (fun a b => (key a <= key b)%Q) l -> stable_sort key lt l = l.
Proof.
  induction 1 as [|x l Hs IH Hf]; simpl; [reflexivity|].
  rewrite IH. destruct l as [|y l]; simpl; [reflexivity|].
  inversion Hf as [|? ? Hxy _]; subst.
  now rewrite (proj2 (lt_false (key y) (key x)) Hxy).
Qed.

Lemma sorted_reverse_id (A : Type) (key : A -> Q) (l : list A) :
  StronglySorted (fun a b => (key b <= key a)%Q) l -> sorted key lt true l = l.
Proof.
  intros H. unfold sorted.
  rewrite stable_sort_sorted_id; [apply rev_involutive|].
  now apply (StronglySorted_rev (R := fun a b => (key b <= key a)%Q)).
Qed.

Lemma StronglySorted_firstn (A : Type) (R : A -> A -> Prop) (n : nat) (l : list A) :
  StronglySorted R l -> StronglySorted R (firstn n l).
Proof.
  intros H. revert n. induction H as [|x l Hs IH Hf]; intros [|n]; simpl;
    try constructor.
  - apply IH.
  - rewrite Forall_forall in *. intros y Hy. apply Hf.
    apply (In_nth _ _ x) in Hy as (i & Hi & <-).
    rewrite length_firstn in Hi.
    rewrite nth_firstn.
    destruct (Nat.ltb_spec i n); [|lia].
    apply nth_In. lia.
Qed.

(** Filtering a filtered report again with the same size changes nothing. *)
Theorem filter_report_idempotent (report_data : ReportDataType) (report_size : Z) :
  0 <= report_size ->
  filter_report (filter_report report_data report_size) report_size
  = filter_report report_data report_size.
Proof.
  intros Hn. unfold filter_report. rewrite !slice_to_nonneg by exact Hn.
  destruct (sorted_reverse time_sum report_data) as (_ & Hs & _).
  rewrite sorted_reverse_id by now apply StronglySorted_firstn.
  rewrite firstn_firstn. now rewrite Nat.min_id.
Qed.

Lemma filter_report_idempotent_witness :
  filter_report (filter_report sample_report 2) 2 = filter_report sample_report 2.
Proof.
  apply (@filter_report_idempotent sample_report 2). lia.
Defined.

(** With a negative size [filter_report] does not return an empty report:
    it returns the ranking without its last [- report_size] records (an
    empty report only when there are no more than that). *)
Theorem filter_report_negative_size (report_data : ReportDataType) (report_size : Z) :
  report_size < 0 ->
  exists dropped,
    sorted time_sum lt true report_data
    = filter_report report_data report_size ++ dropped
    /\ len dropped = Z.min (- report_size) (len report_data).
Proof.
  intros Hn. unfold filter_report, slice_to.
  destruct (Z.ltb_spec report_size 0) as [_|]; [|lia].
  destruct (sorted_reverse time_sum report_data) as (Hp & _ & _).
  set (ranked := sorted time_sum lt true report_data) in *.
  assert (Hl : len ranked = len report_data).
  { unfold len. f_equal. now apply Permutation_length. }
  exists (skipn (Z.to_nat (Z.max 0 (len ranked + report_size))) ranked).
  split; [now rewrite firstn_skipn|].
  unfold len in *. rewrite length_skipn. lia.
Qed.

Lemma filter_report_negative_size_witness :
  exists dropped,
    sorted time_sum lt true sample_report = filter_report sample_report (-1) ++ dropped
    /\ len dropped = 1.
Proof.
  destruct (@filter_report_negative_size sample_report (-1)) as (dropped & H1 & H2);
    [lia|].
  exists dropped. split; [exact H1|]. rewrite H2. vm_compute. reflexivity.
Defined.

(** *** Dates *)

Import LogFiles.

Lemma date_gt_spec (a b : date) :
  date_gt a b = true
  <-> year b < year a
      \/ (year b = year a
          /\ (month b < month a \/ (month b = month a /\ day b < day a))).
Proof.
  unfold date_gt.
  rewrite !orb_true_iff, !andb_true_iff, !orb_true_iff, !andb_true_iff,
    !Z.ltb_lt, !Z.eqb_eq.
  reflexivity.
Qed.

Lemma date_le_spec (a b : date) :
  date_gt a b = false
  <-> ~ (year b < year a
         \/ (year b = year a
             /\ (month b < month a \/ (month b = month a /\ day b < day a)))).
Proof.
  rewrite <- date_gt_spec. destruct (date_gt a b); split; congruence.
Qed.

Lemma date_gt_irrefl (a : date) : date_gt a a = false.
Proof. apply date_le_spec. lia. Qed.

Lemma date_gt_trans (a b c : date) :
  date_gt a b = true -> date_gt b c = true -> date_gt a c = true.
Proof. rewrite !date_gt_spec. lia. Qed.

Lemma date_gt_le_trans (a b c : date) :
  date_gt a b = true -> date_gt c b = false -> date_gt a c = true.
Proof. rewrite !date_gt_spec, date_le_spec. lia. Qed.

Lemma date_le_gt_trans (a b c : date) :
  date_gt a b = false -> date_gt c b = true -> date_gt a c = false.
Proof. rewrite !date_le_spec, date_gt_spec. lia. Qed.

Lemma date_gt_antisym (a b : date) :
  date_gt a b = false -> date_gt b a = false -> a = b.
Proof.
  rewrite !date_le_spec. destruct a as [ya ma da], b as [yb mb db]. simpl.
  intros H1 H2.
  assert (ya = yb /\ ma = mb /\ da = db) as (-> & -> & ->) by lia.
  reflexivity.
Qed.

(** *** The pattern of [get_latest_log] *)

Lemma file_name_matches_inv (w : text) (g : Re.groups) (rest : text) :
  Re.matches file_name_pattern w [] g rest ->
  exists ds e,
    w = log_prefix ++ ds ++ e
    /\ List.length ds = 8%nat
    /\ Forall (fun c => Re.digit c = true) ds
    /\ g = [("date"%string, ds); ("extension"%string, e)]
    /\ (e = txt ".gz" \/ (e = [] /\ Re.at_end rest = true)).
Proof.
  unfold file_name_pattern. cbn [times]. intros H.
  apply matches_cat_inv in H as (w1 & w2 & g1 & -> & H1 & H).
  apply matches_lit_inv in H1 as [-> ->].
  apply matches_cat_inv in H as (ds & e & g2 & -> & Hd & He).
  apply matches_grp_inv in Hd as (g3 & Hd & ->).
  apply matches_grp_inv in He as (g4 & He & ->).
  assert (Hds : List.length ds = 8%nat
                /\ Forall (fun c => Re.digit c = true) ds /\ g3 = []).
  { repeat match goal with
           | H : Re.matches (Re.Cat _ _) _ _ _ _ |- _ =>
               apply matches_cat_inv in H as (? & ? & ? & -> & ? & ?)
           | H : Re.matches (Re.Cls _) _ _ _ _ |- _ =>
               apply matches_cls_inv in H as (? & -> & ? & ->)
           end.
    repeat split. repeat constructor; assumption. }
  destruct Hds as (Hlen & Hdig & ->).
  exists ds, e. split; [reflexivity|]. split; [exact Hlen|]. split; [exact Hdig|].
  apply matches_alt_inv in He as [He|He].
  - apply matches_lit_inv in He as [-> ->]. split; [reflexivity|now left].
  - apply matches_eol_inv in He as (-> & -> & Ht). split; [reflexivity|now right].
Qed.

Lemma file_name_matches (ds e rest : text) :
  List.length ds = 8%nat ->
  Forall (fun c => Re.digit c = true) ds ->
  e = txt ".gz" \/ (e = [] /\ Re.at_end rest = true) ->
  Re.matches file_name_pattern (log_prefix ++ ds ++ e) []
    [("date"%string, ds); ("extension"%string, e)] rest.
Proof.
  intros Hlen Hdig He.
  do 9 (destruct ds as [|? ds]; try discriminate Hlen). clear Hlen.
  repeat match goal with
         | H : Forall _ (_ :: _) |- _ =>
             let Hc := fresh "Hc" in
             let Hr := fresh "Hr" in
             inversion H as [|? ? Hc Hr]; subst; clear H
         end.
  unfold file_name_pattern. cbn [times].
  apply Re.M_Cat with (g1 := []); [constructor|].
  apply Re.M_Cat with (g1 := [("date"%string, [a; a0; a1; a2; a3; a4; a5; a6])]).
  - apply matches_grp with (g' := []); [|reflexivity].
    change [a; a0; a1; a2; a3; a4; a5; a6]
      with ([a] ++ [a0] ++ [a1] ++ [a2] ++ [a3] ++ [a4] ++ [a5] ++ [a6]).
    do 7 (eapply Re.M_Cat; [now constructor|]). now constructor.
  - apply matches_grp with (g' := [("date"%string, [a; a0; a1; a2; a3; a4; a5; a6])]);
      [|reflexivity].
    destruct He as [->|[-> Ht]].
    + apply Re.M_AltL. constructor.
    + apply Re.M_AltR. now constructor.
Qed.

Lemma search_head (r : Re.regex) (s : text) (g : Re.groups) :
  Re.match_at r s = Some g -> Re.search r s = Some g.
Proof.
  intros H. destruct s; simpl; now rewrite H.
Qed.

Lemma strptime_digits (ds : text) (d : date) :
  strptime_Ymd ds = Some d ->
  List.length ds = 8%nat /\ Forall (fun c => Re.digit c = true) ds.
Proof.
  unfold strptime_Ymd.
  do 9 (destruct ds as [|? ds]; try discriminate).
  destruct (forallb Re.digit _) eqn:E; [|discriminate].
  intros _. split; [reflexivity|].
  apply Forall_forall. apply (proj1 (forallb_forall _ _)). exact E.
Qed.

Lemma strptime_valid (ds : text) (d : date) :
  strptime_Ymd ds = Some d -> valid_date (year d) (month d) (day d) = true.
Proof.
  unfold strptime_Ymd.
  do 9 (destruct ds as [|? ds]; try discriminate).
  destruct (forallb Re.digit _ && valid_date _ _ _) eqn:Ev; [|discriminate].
  intros [= <-]. cbn [year month day].
  now apply andb_true_iff in Ev as [_ Ev].
Qed.

Lemma dated_valid (log_file : text) (d : date) (e : text) :
  dated log_file = Some (d, e) -> valid_date (year d) (month d) (day d) = true.
Proof.
  unfold dated, parse_log_filename.
  destruct (Re.search file_name_pattern log_file) as [m|]; [|discriminate].
  destruct m as [|[n1 s1] [|[n2 s2] [|]]]; try discriminate.
  destruct (strptime_Ymd s1) as [d'|] eqn:Ed; [|discriminate].
  intros [= <- _]. now apply strptime_valid in Ed.
Qed.

(** What [get_latest_log] reads off a file name comes from a part of the
    name made of [nginx-access-ui.log-] and eight digits that are a date
    of the calendar; the extension is [.gz], whatever follows it, or
    empty, at the end of the name. *)
Theorem dated_shape (log_file : text) (d : date) (e : text) :
  dated log_file = Some (d, e) ->
  exists pre ds rest,
    log_file = pre ++ log_prefix ++ ds ++ e ++ rest
    /\ strptime_Ymd ds = Some d
    /\ valid_date (year d) (month d) (day d) = true
    /\ (e = txt ".gz" \/ (e = [] /\ Re.at_end rest = true)).
Proof.
  unfold dated. intros H.
  destruct (Re.search file_name_pattern log_file) as [g|] eqn:E; [|discriminate].
  apply search_sound in E as (pre & s' & -> & E).
  unfold Re.match_at in E.
  apply exec_sound in E as (w & rest & g' & -> & Hm & [= ->]).
  apply file_name_matches_inv in Hm as (ds & e' & -> & _ & _ & -> & He).
  cbn [parse_log_filename] in H.
  destruct (strptime_Ymd ds) as [d'|] eqn:Ed; [|discriminate].
  injection H as <- <-.
  exists pre, ds, rest. split; [now rewrite <- !app_assoc|].
  split; [exact Ed|]. split; [|exact He].
  now apply strptime_valid in Ed.
Qed.

Lemma dated_shape_witness :
  exists pre ds rest,
    test_log_name = pre ++ log_prefix ++ ds ++ [] ++ rest
    /\ strptime_Ymd ds = Some {| year := 2021; month := 12; day := 25 |}.
Proof.
  destruct (@dated_shape test_log_name {| year := 2021; month := 12; day := 25 |} [])
    as (pre & ds & rest & H1 & H2 & _).
  - vm_compute. reflexivity.
  - exists pre, ds, rest. split; assumption.
Defined.

Lemma dated_at_start (ds e rest : text) (d : date) :
  strptime_Ymd ds = Some d ->
  (e = txt ".gz" \/ (e = [] /\ rest = [])) ->
  dated (log_prefix ++ ds ++ e ++ rest) = Some (d, e).
Proof.
  intros Hd He. destruct (strptime_digits _ Hd) as [Hlen Hdig].
  assert (Hm : Re.matches file_name_pattern (log_prefix ++ ds ++ e) []
                 [("date"%string, ds); ("extension"%string, e)] rest).
  { apply file_name_matches; auto.
    destruct He as [->|[-> ->]]; [now left|now right]. }
  assert (Hex : Re.match_at file_name_pattern ((log_prefix ++ ds ++ e) ++ rest) <> None).
  { unfold Re.match_at. apply (exec_complete Hm). discriminate. }
  destruct (Re.match_at file_name_pattern ((log_prefix ++ ds ++ e) ++ rest))
    as [g|] eqn:E; [|congruence].
  clear Hex Hm. unfold dated.
  replace (log_prefix ++ ds ++ e ++ rest) with ((log_prefix ++ ds ++ e) ++ rest)
    by now rewrite <- !app_assoc.
  rewrite (search_head _ _ E).
  unfold Re.match_at in E.
  apply exec_sound in E as (w' & rest' & g' & Heq & Hm' & [= ->]).
  apply file_name_matches_inv in Hm' as (ds' & e' & -> & Hlen' & _ & -> & He').
  rewrite <- !app_assoc in Heq. apply app_inv_head in Heq.
  assert (Hds : ds = ds' /\ e ++ rest = e' ++ rest').
  { assert (H1 : firstn 8 (ds ++ e ++ rest) = firstn 8 (ds' ++ e' ++ rest'))
      by now rewrite Heq.
    assert (H2 : skipn 8 (ds ++ e ++ rest) = skipn 8 (ds' ++ e' ++ rest'))
      by now rewrite Heq.
    rewrite <- Hlen in H1 at 1. rewrite <- Hlen' in H1.
    rewrite <- Hlen in H2 at 1. rewrite <- Hlen' in H2.
    rewrite !firstn_app, !Nat.sub_diag, !firstn_all in H1. simpl in H1.
    rewrite !app_nil_r in H1.
    rewrite !skipn_app, !Nat.sub_diag, !skipn_all in H2. simpl in H2.
    auto. }
  destruct Hds as [<- Hrest]. cbn [parse_log_filename]. rewrite Hd.
  f_equal. f_equal.
  destruct He as [->|[-> ->]], He' as [->|[-> Ht]]; try reflexivity.
  - simpl in Hrest. subst rest'. discriminate Ht.
  - simpl in Hrest. discriminate Hrest.
Qed.

(** A name made of [nginx-access-ui.log-] and the eight digits of a date
    is read as a plain log of that date; with [.gz] behind the digits it
    is read as a compressed one, whatever follows [.gz]. *)
Theorem dated_canonical (ds rest : text) (d : date) :
  strptime_Ymd ds = Some d ->
  dated (log_prefix ++ ds) = Some (d, [])
  /\ dated (log_prefix ++ ds ++ txt ".gz" ++ rest) = Some (d, txt ".gz").
Proof.
  intros Hd. split.
  - rewrite <- (app_nil_r ds) at 1.
    change (ds ++ []) with (ds ++ [] ++ []). apply dated_at_start; auto.
  - apply dated_at_start; auto.
Qed.

Lemma dated_canonical_witness :
  dated (log_prefix ++ txt "20211225") = Some ({| year := 2021; month := 12; day := 25 |}, [])
  /\ dated (log_prefix ++ txt "20211225" ++ txt ".gz" ++ txt ".part")
     = Some ({| year := 2021; month := 12; day := 25 |}, txt ".gz").
Proof.
  apply (@dated_canonical (txt "20211225") (txt ".part")).
  vm_compute. reflexivity.
Defined.

(** *** The loop of [get_latest_log] *)

Lemma latest_step_dated (dir : text) (st : latest) (log_file : text) :
  latest_step dir st log_file
  = match dated log_file with
    | None => st
    | Some (d, e) =>
        if date_gt d (latest_date st) then
          {| latest_log :=
               Some {| path_to_file := join dir log_file;
                       file_name := log_file;
                       file_date := d;
                       file_extension := e |};
             latest_date := d |}
        else st
    end.
Proof.
  unfold latest_step, dated.
  destruct (Re.search file_name_pattern log_file) as [m|]; [|reflexivity].
  destruct (parse_log_filename m) as [[d|] e]; reflexivity.
Qed.

Lemma latest_inv_step (dir : text) (done : list text) (st : latest) (log_file : text) :
  latest_inv dir done st ->
  latest_inv dir (done ++ [log_file]) (latest_step dir st log_file).
Proof.
  intros Hinv. rewrite latest_step_dated. unfold latest_inv in *.
  destruct (dated log_file) as [[d e]|] eqn:Ed.
  - destruct (date_gt d (latest_date st)) eqn:G.
    + cbn [latest_log latest_date file_date path_to_file file_name file_extension].
      destruct (latest_log st) as [log|].
      * destruct Hinv as (Hl & Hmin & _ & Hdt & before & after & -> & Hb & Ha).
        rewrite Hl in G.
        split; [reflexivity|]. split; [now apply date_gt_trans with (file_date log)|].
        split; [reflexivity|]. split; [exact Ed|].
        exists (before ++ file_name log :: after), []. split; [reflexivity|].
        split; [|intros name d' e' []].
        intros name d' e' Hin Hd'. apply in_app_or in Hin as [Hin|[<-|Hin]].
        -- apply date_gt_trans with (file_date log); eauto.
        -- rewrite Hdt in Hd'. injection Hd' as <- <-. exact G.
        -- apply date_gt_le_trans with (file_date log); eauto.
      * destruct Hinv as (Hl & Hall). rewrite Hl in G.
        split; [reflexivity|]. split; [exact G|].
        split; [reflexivity|]. split; [exact Ed|].
        exists done, []. split; [reflexivity|].
        split; [|intros name d' e' []].
        intros name d' e' Hin Hd'. apply date_gt_le_trans with date_min; eauto.
    + destruct (latest_log st) as [log|].
      * destruct Hinv as (Hl & Hmin & Hp & Hdt & before & after & -> & Hb & Ha).
        rewrite Hl in G.
        split; [exact Hl|]. split; [exact Hmin|]. split; [exact Hp|]. split; [exact Hdt|].
        exists before, (after ++ [log_file]). split; [now rewrite <- app_assoc|].
        split; [exact Hb|].
        intros name d' e' Hin Hd'. apply in_app_or in Hin as [Hin|[<-|[]]]; eauto.
        rewrite Ed in Hd'. injection Hd' as <- <-. exact G.
      * destruct Hinv as (Hl & Hall). rewrite Hl in G.
        split; [exact Hl|].
        intros name d' e' Hin Hd'. apply in_app_or in Hin as [Hin|[<-|[]]]; eauto.
        rewrite Ed in Hd'. injection Hd' as <- <-. exact G.
  - destruct (latest_log st) as [log|].
    + destruct Hinv as (Hl & Hmin & Hp & Hdt & before & after & -> & Hb & Ha).
      split; [exact Hl|]. split; [exact Hmin|]. split; [exact Hp|]. split; [exact Hdt|].
      exists before, (after ++ [log_file]). split; [now rewrite <- app_assoc|].
      split; [exact Hb|].
      intros name d' e' Hin Hd'. apply in_app_or in Hin as [Hin|[<-|[]]]; eauto.
      congruence.
    + destruct Hinv as (Hl & Hall). split; [exact Hl|].
      intros name d' e' Hin Hd'. apply in_app_or in Hin as [Hin|[<-|[]]]; eauto.
      congruence.
Qed.

Lemma latest_inv_fold (dir : text) (listing done : list text) (st : latest) :
  latest_inv dir done st ->
  latest_inv dir (done ++ listing) (fold_left (latest_step dir) listing st).
Proof.
  revert done st. induction listing as [|log_file listing IH]; intros done st H; simpl.
  - now rewrite app_nil_r.
  - replace (done ++ log_file :: listing) with ((done ++ [log_file]) ++ listing)
      by now rewrite <- app_assoc.
    apply IH. now apply latest_inv_step.
Qed.

Lemma get_latest_log_inv (dir : text) (listing : list text) :
  latest_inv dir listing
    (fold_left (latest_step dir) listing {| latest_log := None; latest_date := date_min |}).
Proof.
  apply (@latest_inv_fold dir listing []).
  split; [reflexivity|]. intros name d e [].
Qed.

(** The log [get_latest_log] returns is a file of the listing, with the
    date and the extension read off its name and the directory joined to
    the name as its path; its date is later than 0001-01-01 and than the
    date of every dated file in front of it in the listing, and no dated
    file behind it has a later date. *)
Theorem get_latest_log_latest (log_directory : text) (listing : list text)
  (log : LogMetadata) :
  get_latest_log log_directory listing = Some log ->
  path_to_file log = join log_directory (file_name log)
  /\ dated (file_name log) = Some (file_date log, file_extension log)
  /\ date_gt (file_date log) date_min = true
  /\ exists before after,
       listing = before ++ file_name log :: after
       /\ (forall name d e, In name before -> dated name = Some (d, e) ->
                            date_gt (file_date log) d = true)
       /\ (forall name d e, In name after -> dated name = Some (d, e) ->
                            date_gt d (file_date log) = false).
Proof.
  unfold get_latest_log. intros H.
  pose proof (get_latest_log_inv log_directory listing) as Hinv.
  unfold latest_inv in Hinv. rewrite H in Hinv.
  destruct Hinv as (_ & Hmin & Hp & Hd & Hex). auto.
Qed.

Lemma dated_after_min (log_file : text) (d : date) (e : text) :
  dated log_file = Some (d, e) -> date_gt d date_min = false -> d = date_min.
Proof.
  intros H Hle. apply dated_valid in H as Hv.
  apply date_gt_antisym; [exact Hle|].
  apply date_le_spec. unfold valid_date in Hv.
  repeat (apply andb_true_iff in Hv as [Hv ?]).
  repeat match goal with H : (_ <=? _) = true |- _ => apply Z.leb_le in H end.
  simpl. lia.
Qed.

(** [get_latest_log] returns no log exactly when every file of the
    listing that has a date in its name is dated 0001-01-01: such a file
    is never picked. *)
Theorem get_latest_log_none (log_directory : text) (listing : list text) :
  get_latest_log log_directory listing = None
  <-> forall name d e, In name listing -> dated name = Some (d, e) -> d = date_min.
Proof.
  unfold get_latest_log.
  pose proof (get_latest_log_inv log_directory listing) as Hinv.
  unfold latest_inv in Hinv.
  destruct (latest_log _) as [log|]; split; try reflexivity; try discriminate.
  - intros Hall. exfalso.
    destruct Hinv as (_ & Hmin & _ & Hd & before & after & -> & _).
    assert (Hin : In (file_name log) (before ++ file_name log :: after))
      by (apply in_or_app; right; now left).
    rewrite (Hall _ _ _ Hin Hd) in Hmin. discriminate Hmin.
  - intros _ name d e Hin Hd. destruct Hinv as (_ & Hall).
    eapply dated_after_min; eauto.
Qed.

Example test_get_latest_log :
  get_latest_log test_dir [test_log_name]
  = Some {| path_to_file := txt "./test/nginx-access-ui.log-20211225";
            file_name := test_log_name;
            file_date := {| year := 2021; month := 12; day := 25 |};
            file_extension := [] |}.
Proof. vm_compute. reflexivity. Qed.

Lemma get_latest_log_latest_witness :
  dated test_log_name = Some ({| year := 2021; month := 12; day := 25 |}, [])
  /\ date_gt {| year := 2021; month := 12; day := 25 |} date_min = true.
Proof.
  destruct (get_latest_log_latest test_dir [test_log_name] test_get_latest_log)
    as (_ & Hd & Hmin & _).
  split; [exact Hd|exact Hmin].
Defined.

(** *** The name of the report *)

Lemma digit_char_value (c : ascii) :
  Re.digit c = true -> digit_char (digit_value c) = c.
Proof.
  intros H. pose proof (@digit_value_nonneg c H) as Hv.
  unfold digit_char. rewrite Z.mod_small by lia.
  unfold digit_value in *.
  replace (48 + Z.to_nat (Z.of_nat (nat_of_ascii c) - 48))%nat with (nat_of_ascii c) by lia.
  apply ascii_nat_embedding.
Qed.

Lemma digit_char_step (z : Z) (c : ascii) :
  Re.digit c = true ->
  digit_char (10 * z + digit_value c) = c /\ (10 * z + digit_value c) / 10 = z.
Proof.
  intros H. pose proof (@digit_value_nonneg c H) as Hv. split.
  - rewrite <- (@digit_char_value c H) at 2. unfold digit_char. f_equal. f_equal. f_equal.
    rewrite Z.add_comm, Z.mul_comm, Z.mod_add by lia. reflexivity.
  - rewrite Z.add_comm, Z.mul_comm, Z.div_add by lia.
    rewrite Z.div_small by lia. reflexivity.
Qed.

Lemma pad_digits (s : text) :
  Forall (fun c => Re.digit c = true) s ->
  pad (List.length s) (digits_value s) = s.
Proof.
  intros H. induction s as [|c s IH] using rev_ind; [reflexivity|].
  apply Forall_app in H as [Hs Hc]. inversion Hc as [|? ? Hd _]; subst.
  rewrite length_app, Nat.add_comm. cbn [List.length Nat.add pad].
  unfold digits_value in *. rewrite fold_left_app. cbn [fold_left].
  destruct (@digit_char_step (fold_left (fun acc c0 => 10 * acc + digit_value c0) s 0) c Hd)
    as [-> ->].
  now rewrite (IH Hs).
Qed.

(** The report of a log is named after the digits in the name of the
    log: for the log of the date [YYYYMMDD] it is
    [report-YYYY.MM.DD.html] in the report directory.  (Stated for
    four-digit years, where [%Y] does not depend on the platform.) *)
Theorem build_report_path_round_trip (report_directory : text)
  (y1 y2 y3 y4 m1 m2 d1 d2 : ascii) (d : date) :
  strptime_Ymd [y1; y2; y3; y4; m1; m2; d1; d2] = Some d ->
  1000 <= year d ->
  build_report_path report_directory d
  = join report_directory
      (txt "report-" ++ [y1; y2; y3; y4] ++ txt "." ++ [m1; m2] ++ txt "."
       ++ [d1; d2] ++ txt ".html").
Proof.
  intros H _. destruct (strptime_digits _ H) as [_ Hdig].
  unfold strptime_Ymd in H.
  destruct (forallb Re.digit _ && valid_date _ _ _); [|discriminate].
  injection H as <-.
  repeat match goal with
         | H : Forall _ (_ :: _) |- _ =>
             let Hc := fresh "Hc" in
             inversion H as [|? ? Hc ?]; subst; clear H
         end.
  unfold build_report_path, strftime_Ymd. cbn [year month day].
  assert (Py : pad 4 (digits_value [y1; y2; y3; y4]) = [y1; y2; y3; y4])
    by (apply (@pad_digits [y1; y2; y3; y4]); repeat constructor; assumption).
  assert (Pm : pad 2 (digits_value [m1; m2]) = [m1; m2])
    by (apply (@pad_digits [m1; m2]); repeat constructor; assumption).
  assert (Pd : pad 2 (digits_value [d1; d2]) = [d1; d2])
    by (apply (@pad_digits [d1; d2]); repeat constructor; assumption).
  rewrite Py, Pm, Pd. now rewrite <- !app_assoc.
Qed.

(** [test_build_report_path]. *)
Example test_build_report_path :
  build_report_path test_dir {| year := 2021; month := 12; day := 25 |}
  = txt "./test/report-2021.12.25.html".
Proof. vm_compute. reflexivity. Qed.

Lemma build_report_path_round_trip_witness :
  build_report_path test_dir {| year := 2021; month := 12; day := 25 |}
  = join test_dir (txt "report-" ++ txt "2021" ++ txt "." ++ txt "12" ++ txt "."
                   ++ txt "25" ++ txt ".html").
Proof.
  apply (@build_report_path_round_trip test_dir
           "2"%char "0"%char "2"%char "1"%char "1"%char "2"%char "2"%char "5"%char).
  - vm_compute. reflexivity.
  - simpl. lia.
Defined.

(** *** The configuration *)

Lemma get_set_item (d : Config.dict) (k key : text) (v : Config.json) :
  Config.get (Config.set_item d k v) key
  = if text_eqb k key then Some v else Config.get d key.
Proof.
  induction d as [|[k' w] d IH]; simpl; [reflexivity|].
  destruct (text_eqb k' k) eqn:E; simpl.
  - apply text_eqb_eq in E. subst k'. destruct (text_eqb k key); reflexivity.
  - rewrite IH. destruct (text_eqb k' key) eqn:E'; [|reflexivity].
    destruct (text_eqb k key) eqn:E''; [|reflexivity].
    apply text_eqb_eq in E', E''. subst. now rewrite text_eqb_refl in E.
Qed.

Lemma get_absent (d : Config.dict) (key : text) :
  ~ In key (map fst d) -> Config.get d key = None.
Proof.
  induction d as [|[k v] d IH]; simpl; [reflexivity|]. intros H.
  destruct (text_eqb k key) eqn:E; [|apply IH; tauto].
  apply text_eqb_eq in E. tauto.
Qed.

Lemma get_merge (a b : Config.dict) (key : text) :
  NoDup (map fst b) ->
  Config.get (Config.merge a b) key
  = match Config.get b key with
    | Some v => Some v
    | None => Config.get a key
    end.
Proof.
  unfold Config.merge. revert a.
  induction b as [|[k v] b IH]; intros a Hb; simpl; [reflexivity|].
  inversion Hb as [|? ? Hk Hb']; subst.
  rewrite (IH _ Hb'), get_set_item.
  destruct (text_eqb k key) eqn:E; [|reflexivity].
  apply text_eqb_eq in E. subst. now rewrite (get_absent _ _ Hk).
Qed.

Lemma set_item_keys (d : Config.dict) (k : text) (v : Config.json) :
  NoDup (map fst d) -> NoDup (map fst (Config.set_item d k v)).
Proof.
  assert (Hin : forall d key, In key (map fst (Config.set_item d k v)) ->
                              key = k \/ In key (map fst d)).
  { clear d. induction d as [|[k' w] d IH]; simpl; intros key H.
    - destruct H as [H|[]]; auto.
    - destruct (text_eqb k' k); simpl in H; [tauto|].
      destruct H as [H|H]; [tauto|]. apply IH in H; tauto. }
  induction d as [|[k' w] d IH]; simpl; intros H.
  - constructor; [intros []|constructor].
  - inversion H as [|? ? Hn Hd]; subst.
    destruct (text_eqb k' k) eqn:E; simpl; [constructor; assumption|].
    constructor; [|auto].
    intros Hc. apply Hin in Hc as [Hc|Hc]; [|contradiction].
    subst k'. now rewrite text_eqb_refl in E.
Qed.

Lemma merge_keys (a b : Config.dict) :
  NoDup (map fst a) -> NoDup (map fst (Config.merge a b)).
Proof.
  unfold Config.merge. revert a.
  induction b as [|[k v] b IH]; intros a Ha; simpl; [exact Ha|].
  apply IH. now apply set_item_keys.
Qed.

Lemma merge_keeps (a b : Config.dict) (key : text) :
  Config.get a key <> None -> Config.get (Config.merge a b) key <> None.
Proof.
  unfold Config.merge. revert a.
  induction b as [|[k v] b IH]; intros a Ha; simpl; [exact Ha|].
  apply IH. rewrite get_set_item. destruct (text_eqb k key); [discriminate|exact Ha].
Qed.

(** On a configuration file that holds an object, [parse_config] returns
    a dict in which every key of the file has the value of the file and
    every other key the value of the defaults; the keys stay distinct. *)
Theorem parse_config_lookup (members default_config : Config.dict) :
  NoDup (map fst members) ->
  exists config,
    Config.parse_config (Config.Holds (Config.JObj members)) default_config = inr config
    /\ (forall key,
          Config.get config key
          = match Config.get members key with
            | Some v => Some v
            | None => Config.get default_config key
            end)
    /\ (NoDup (map fst default_config) -> NoDup (map fst config)).
Proof.
  intros Hm. unfold Config.parse_config, Config.truthy.
  destruct members as [|kv members]; simpl negb; cbv iota.
  - exists default_config. repeat split; auto.
  - exists (Config.merge default_config (kv :: members)).
    split; [reflexivity|]. split.
    + intros key. now apply get_merge.
    + apply merge_keys.
Qed.

Lemma parse_config_lookup_witness :
  exists config,
    Config.parse_config (Config.Holds (Config.JObj sample_members)) Config.DEFAULT_CONFIG
    = inr config
    /\ Config.get config (txt "REPORT_SIZE") = Some (Config.JNum 50)
    /\ Config.get config (txt "LOG_DIR") = Some (Config.JStr (txt "./log")).
Proof.
  destruct (@parse_config_lookup sample_members Config.DEFAULT_CONFIG)
    as (config & Hc & Hget & _).
  - repeat constructor; simpl; intros H;
      repeat (destruct H as [H|H]; [discriminate H|]); exact H.
  - exists config. split; [exact Hc|]. rewrite !Hget. split; reflexivity.
Defined.

(** Whatever the configuration file holds, a dict [parse_config] returns
    has every key of the defaults: with [DEFAULT_CONFIG], [REPORT_SIZE],
    [REPORT_DIR] and [LOG_DIR] are always there to be read. *)
Theorem parse_config_keeps_defaults (file : Config.config_file)
  (default_config config : Config.dict) (key : text) :
  Config.parse_config file default_config = inr config ->
  Config.get default_config key <> None ->
  Config.get config key <> None.
Proof.
  unfold Config.parse_config.
  destruct file as [| |v]; try discriminate.
  destruct (negb (Config.truthy v)); [now intros [= <-]|].
  destruct v; try discriminate.
  intros [= <-]. apply merge_keeps.
Qed.

Lemma parse_config_keeps_defaults_witness :
  Config.get (Config.merge Config.DEFAULT_CONFIG sample_members) (txt "REPORT_DIR")
  <> None.
Proof.
  apply (@parse_config_keeps_defaults
           (Config.Holds (Config.JObj sample_members)) Config.DEFAULT_CONFIG
           (Config.merge Config.DEFAULT_CONFIG sample_members) (txt "REPORT_DIR")).
  - reflexivity.
  - discriminate.
Defined.

(** *** The report [main] dumps *)

Lemma main_dumped_inv (cfg : config) (f : list text) (final : ReportDataType) :
  main cfg (Some f) = Dumped final ->
  exists report_data,
    build_report_object (data (read_stream f)) = Ok report_data
    /\ final = filter_report report_data (REPORT_SIZE cfg).
Proof.
  unfold main.
  destruct (parse_log_records f _) as [m|e] eqn:E; [|discriminate].
  apply parse_log_records_ok_inv in E as (-> & _ & _).
  destruct (data (read_stream f)) as [|kv m] eqn:D; [discriminate|].
  destruct (build_report_object (kv :: m)) as [rep|e]; [|discriminate].
  intros [= <-]. eauto.
Qed.

Lemma lookup_member (d : url_stats_t) (key : text) :
  In key (map fst d) -> lookup key d <> None.
Proof.
  induction d as [|[k v] d IH]; simpl; [intros []|].
  destruct (text_eqb k key) eqn:E; [discriminate|].
  intros [->|H]; [now rewrite text_eqb_refl in E|now apply IH].
Qed.

Lemma read_stream_key_sampled (f : list text) (key : text) :
  In key (map fst (data (read_stream f))) -> In key (map fst (samples f)).
Proof.
  intros H. apply lookup_member in H. rewrite read_stream_lookup in H.
  unfold latencies_of in H.
  destruct (filter (fun s => text_eqb (fst s) key) (samples f)) as [|s l] eqn:E;
    [now contradiction H|].
  assert (Hin : In s (filter (fun s => text_eqb (fst s) key) (samples f)))
    by (rewrite E; now left).
  apply filter_In in Hin as [Hin Hk]. apply text_eqb_eq in Hk. subst key.
  now apply in_map.
Qed.

Lemma NoDup_firstn (A : Type) (n : nat) (l : list A) : NoDup l -> NoDup (firstn n l).
Proof.
  intros H. rewrite <- (firstn_skipn n l) in H. now apply NoDup_app_remove_r in H.
Qed.

(** The report [main] dumps, for a report size that is not negative: it
    has as many records as the log has distinct endpoints, or
    [REPORT_SIZE] if that is less; the records are in descending order
    of [time_sum]; no endpoint has two records; and every endpoint in it
    was extracted from a line of the log. *)
Theorem main_report_shape (cfg : config) (f : list text)
  (final_report_data : ReportDataType) :
  main cfg (Some f) = Dumped final_report_data ->
  0 <= REPORT_SIZE cfg ->
  len final_report_data = Z.min (REPORT_SIZE cfg) (len (data (read_stream f)))
  /\ StronglySorted (fun a b => (time_sum b <= time_sum a)%Q) final_report_data
  /\ NoDup (map url final_report_data)
  /\ (forall obj, In obj final_report_data -> In (url obj) (map fst (samples f))).
Proof.
  intros H Hn. apply main_dumped_inv in H as (rep & Hr & ->).
  apply build_report_object_inv in Hr as [Hf _].
  pose proof (entry_of_url Hf) as Hurl.
  assert (Hlen : List.length rep = List.length (data (read_stream f))).
  { symmetry. revert Hf. apply Forall2_length. }
  unfold filter_report. rewrite slice_to_nonneg by exact Hn.
  destruct (sorted_reverse time_sum rep) as (Hp & Hs & _).
  set (ranked := sorted time_sum lt true rep) in *.
  split; [|split; [|split]].
  - unfold len. rewrite length_firstn, (Permutation_length Hp), Hlen. lia.
  - now apply StronglySorted_firstn.
  - rewrite <- firstn_map. apply NoDup_firstn.
    apply (Permutation_NoDup (l := map url rep)).
    + apply Permutation_map. now symmetry.
    + rewrite Hurl. apply read_stream_keys.
  - intros obj Hin. apply read_stream_key_sampled. rewrite <- Hurl.
    apply in_map. apply (Permutation_in _ Hp).
    rewrite <- (firstn_skipn (Z.to_nat (REPORT_SIZE cfg)) ranked).
    apply in_or_app. now left.
Qed.

Lemma main_report_shape_witness :
  exists final_report_data,
    main default_cfg (Some [prefixed_line; blank_path_line]) = Dumped final_report_data
    /\ len final_report_data = 2
    /\ NoDup (map url final_report_data).
Proof.
  destruct (main default_cfg (Some [prefixed_line; blank_path_line]))
    as [| |e|final] eqn:E; try (vm_compute in E; discriminate E).
  exists final. split; [reflexivity|].
  destruct (@main_report_shape default_cfg [prefixed_line; blank_path_line] final E)
    as (Hlen & _ & Hnd & _); [simpl; lia|].
  split; [|exact Hnd]. rewrite Hlen. vm_compute. reflexivity.
Defined.

(** *** The average and the median against the maximum *)






